(** * Number Duel: a shallow embedding of [number_duel.py]

    The development follows the layout of the Python module: the highscore
    utilities ([load_highscores], [save_highscores], [add_highscore],
    [display_highscores]), the game core ([choose_difficulty], [get_int],
    [give_hint], [play_round], [compute_score]) and the "play a round" branch
    of [main].

    Modelling conventions.
    - Python [int] is [Z]; the dictionaries that the program builds and reads
      by key (the round result, the score table, [DIFFICULTIES]) are [gmap]s
      with string keys; a missing key is a [KeyError].
    - Exceptions are explicit: a computation yields an [outcome].
    - The terminal is a trace of [event]s; the lines typed by the player are a
      list of [line]s, the wall clock is a function from the number of the
      reading to the seconds elapsed since [start_time], and the draw of
      [random.randint] is an argument.
    - [time.time() - start_time] and [secret * 0.02] are Python floats.  The
      clock reading is taken as the rational it denotes; its only use is a
      comparison with the integer limit, which Python carries out exactly.
      The product [secret * 0.02] is computed on binary64 floats
      ([double_product]); its only use is a comparison with the integer
      difference, which Python carries out exactly. *)

From Stdlib Require Import ZArith QArith Qminmax Qround List String Ascii Lia Sorted Permutation DecimalString.
From Stdlib Require Import Floats.SpecFloat.
From stdpp Require Import gmap strings list sorting.
Import ListNotations.

Local Open Scope Z_scope.

(* ================================================================== *)
(** * Python values, exceptions and outcomes *)
(* ================================================================== *)

(** The values stored in the dictionaries of the program. *)
Inductive value : Type :=
  | VNone
  | VBool (b : bool)
  | VInt (n : Z).

(** The exception classes the modelled code can meet.  All of them derive
    from [Exception]. *)
Inductive exn : Type :=
  | KeyError (k : string)
  | TypeError
  | EOFError
  | OSError
  | JSONDecodeError
  | UnicodeDecodeError
  | ValueError
  | AttributeError.

(** What a call does: it returns, it raises, or the bounded unfolding of a
    loop was too short ([OutOfFuel], shown unreachable for [play_round]). *)
Inductive outcome (A : Type) : Type :=
  | Ret (a : A)
  | Raise (e : exn)
  | OutOfFuel.
Arguments Ret {A} a.
Arguments Raise {A} e.
Arguments OutOfFuel {A}.

#[global] Instance outcome_ret : MRet outcome := fun A a => Ret a.
#[global] Instance outcome_bind : MBind outcome := fun A B f m =>
  match m with
  | Ret a => f a
  | Raise e => Raise e
  | OutOfFuel => OutOfFuel
  end.

(** [try: body / except Exception: handler]. *)
Definition try_except {A : Type} (body : outcome A) (handler : exn -> outcome A)
  : outcome A :=
  match body with
  | Raise e => handler e
  | other => other
  end.

(** [d[k]] on a dictionary. *)
Definition getitem {V : Type} (d : gmap string V) (k : string) : outcome V :=
  match d !! k with
  | Some v => Ret v
  | None => Raise (KeyError k)
  end.

(** Truth value of an object, as [if x:] and [not x] take it. *)
Definition truthy (v : value) : bool :=
  match v with
  | VNone => false
  | VBool b => b
  | VInt n => negb (n =? 0)
  end.

(** An object used as a number ([bool] is a subclass of [int]). *)
Definition as_int (v : value) : outcome Z :=
  match v with
  | VInt n => Ret n
  | VBool b => Ret (Z.b2z b)
  | VNone => Raise TypeError
  end.

(** Truth value of [cfg["attempts"]] and [cfg["time_limit"]]: [None] and 0
    are false. *)
Definition truthy_opt (o : option Z) : bool :=
  match o with
  | Some n => negb (n =? 0)
  | None => false
  end.

(** Comparison and [max] on the rationals that stand for floats.
    [max(a, b)] returns [b] only when [b > a]. *)
Definition Qgtb (a b : Q) : bool := negb (Qle_bool a b).
Definition pymax (a b : Q) : Q := if Qgtb b a then b else a.

(** [int(x)]: truncation towards zero. *)
Definition py_int (x : Q) : Z := Z.quot (Qnum x) (Zpos (Qden x)).

(** [str(n)] for an integer: decimal digits, with a leading minus sign. *)
Definition str (n : Z) : string := NilZero.string_of_int (Z.to_int n).

(* ================================================================== *)
(** * Config / constants *)
(* ================================================================== *)

Record profile : Type := Profile {
  p_min : Z;
  p_max : Z;
  p_attempts : option Z;
  p_time_limit : option Z
}.

Definition DIFFICULTIES : gmap string profile :=
  list_to_map
    [ ("easy"%string,   Profile 1 50   (Some 10) None);
      ("medium"%string, Profile 1 200  (Some 8)  None);
      ("hard"%string,   Profile 1 1000 (Some 10) None);
      ("timed"%string,  Profile 1 500  None      (Some 20)) ].

(* ================================================================== *)
(** * Utilities: highscores *)
(* ================================================================== *)

(** One record of [highscores.json]. *)
Record entry : Type := Entry {
  e_name : string;
  e_score : Z;
  e_difficulty : string;
  e_date : string
}.

(** The state of [HIGHSCORE_FILE]: absent; a regular file that can be
    rewritten but whose reading or parsing ([open] for reading, or
    [json.load]) raises the given exception; or a regular file holding a
    list of records, as [save_highscores] writes it.  What else can be at
    the path is in [artifact] below. *)
Inductive file_state : Type :=
  | Missing
  | Corrupt (e : exn)
  | Stored (entries : list entry).

Definition file_exists (fs : file_state) : bool :=
  match fs with
  | Missing => false
  | _ => true
  end.

(** [with open(HIGHSCORE_FILE) as f: json.load(f)]. *)
Definition json_load (fs : file_state) : outcome (list entry) :=
  match fs with
  | Missing => Raise OSError
  | Corrupt e => Raise e
  | Stored entries => Ret entries
  end.

Definition load_highscores (fs : file_state) : outcome (list entry) :=
  if negb (file_exists fs) then Ret []
  else try_except (json_load fs) (fun _ => Ret []).

(** The file is rewritten as a whole; on these three states the write is
    taken to succeed (the text of the records can be encoded, the disk
    takes it). *)
Definition save_highscores (entries : list entry) (fs : file_state)
  : outcome file_state :=
  Ret (Stored entries).

(** [sorted(l, key=..., reverse=...)].  The sort is stable; with
    [reverse=True] the list is reversed, sorted ascending and reversed again,
    which keeps equal keys in their original order.  Only [<] on keys is
    used. *)
Section PySorted.
Context {A : Type} (key : A -> Z).

Fixpoint insort (x : A) (l : list A) : list A :=
  match l with
  | [] => [x]
  | y :: l' => if key y <? key x then y :: insort x l' else x :: y :: l'
  end.

Definition sort_stable (l : list A) : list A := foldr insort [] l.

Definition sorted (l : list A) (reverse : bool) : list A :=
  if reverse then rev (sort_stable (rev l)) else sort_stable l.
End PySorted.

(** [now] is the value of [datetime.utcnow().isoformat()]. *)
Definition add_highscore (name : string) (score : Z) (difficulty : string)
    (now : string) (fs : file_state) : outcome file_state :=
  entries ← load_highscores fs;
  let entries := entries ++ [Entry name score difficulty (now +:+ "Z")] in
  let entries := take 50 (sorted e_score entries true) in
  save_highscores entries fs.

(** A sequence of [add_highscore] calls, each on the file the previous one
    left. *)
Definition add_request : Type := (string * Z * string * string)%type.

Definition request_entry (r : add_request) : entry :=
  let '(name, score, difficulty, now) := r in
  Entry name score difficulty (now +:+ "Z").

Fixpoint add_all (reqs : list add_request) (fs : file_state)
  : outcome file_state :=
  match reqs with
  | [] => Ret fs
  | (name, score, difficulty, now) :: rest =>
      fs' ← add_highscore name score difficulty now fs;
      add_all rest fs'
  end.

(** ** The file beyond the three states *)

(** What [json.load] returns, as far as [add_highscore] tells values apart:
    a list of records, or a value that is not a list (an object, a number,
    a string, [null]), which has no [append]. *)
Inductive document : Type :=
  | DocList (entries : list entry)
  | DocOther.

(** What can be at the path: one of the three states above; a regular file
    holding valid JSON that is not a list; or a directory, which [open]
    refuses with [IsADirectoryError], an [OSError], for reading and for
    writing alike. *)
Inductive artifact : Type :=
  | OnDisk (fs : file_state)
  | NotAList
  | Directory.

Definition artifact_exists (a : artifact) : bool :=
  match a with
  | OnDisk fs => file_exists fs
  | NotAList | Directory => true
  end.

Definition json_load_at (a : artifact) : outcome document :=
  match a with
  | OnDisk fs => entries ← json_load fs; Ret (DocList entries)
  | NotAList => Ret DocOther
  | Directory => Raise OSError
  end.

Definition load_highscores_at (a : artifact) : outcome document :=
  if negb (artifact_exists a) then Ret (DocList [])
  else try_except (json_load_at a) (fun _ => Ret (DocList [])).

Definition save_highscores_at (entries : list entry) (a : artifact)
  : outcome artifact :=
  match a with
  | OnDisk fs => fs' ← save_highscores entries fs; Ret (OnDisk fs')
  | NotAList => Ret (OnDisk (Stored entries))
  | Directory => Raise OSError
  end.

(** [entries.append(...)]: only a list has it. *)
Definition append_entry (d : document) (e : entry) : outcome (list entry) :=
  match d with
  | DocList entries => Ret (entries ++ [e])
  | DocOther => Raise AttributeError
  end.

Definition add_highscore_at (name : string) (score : Z) (difficulty : string)
    (now : string) (a : artifact) : outcome artifact :=
  d ← load_highscores_at a;
  entries ← append_entry d (Entry name score difficulty (now +:+ "Z"));
  let entries := take 50 (sorted e_score entries true) in
  save_highscores_at entries a.

(* ================================================================== *)
(** * Game core *)
(* ================================================================== *)

(** A line typed at a prompt, after [strip()], by what [get_int] makes of
    it: empty; passing the digit test ([isdigit], possibly after a minus
    sign) and read by [int] as [n]; passing the digit test but refused by
    [int], which raises [ValueError] (a digit character that is not decimal,
    such as a superscript two, or more digits than [int] converts); or
    anything else. *)
Inductive line : Type :=
  | Blank
  | Number (n : Z)
  | Junk (s : string)
  | Refused (s : string).

(** What the program prints, and the guesses it accepts, in order. *)
Inductive event : Type :=
  | OutIntro (lo hi : Z) (player : string)
  | OutYouHaveAttempts (n : Z)
  | OutYouHaveSeconds (t : Z)
  | OutTimer (remain : Z)
  | OutTimeUp
  | OutNoAttempts
  | OutEnterNumber
  | OutAtLeast (m : Z)
  | OutAtMost (m : Z)
  | OutNotInteger
  | InGuess (g : Z)
  | OutCorrect
  | OutHint (text : string)
  | OutAttemptsLeft (n : Z)
  | OutTip (lower : bool) (lo hi : Z)
  | OutResult (win : bool) (score : Z)
  | OutSecretWas (secret : value)
  | OutSaved.

(** [get_int(prompt, min_val, max_val)]: reads lines until one is an integer
    in range.  Returns the messages printed and the integer with the unread
    lines; raises [EOFError] (from [input]) when the input ends first, and
    [ValueError] (from [int], not caught) on a line that passes the digit
    test and is refused. *)
Fixpoint get_int (min_val max_val : option Z) (inp : list line)
  : list event * outcome (Z * list line) :=
  match inp with
  | [] => ([], Raise EOFError)
  | Blank :: rest =>
      let '(out, r) := get_int min_val max_val rest in (OutEnterNumber :: out, r)
  | Refused _ :: rest => ([], Raise ValueError)
  | Number n :: rest =>
      match min_val with
      | Some m =>
          if n <? m then
            let '(out, r) := get_int min_val max_val rest in (OutAtLeast m :: out, r)
          else
            match max_val with
            | Some M =>
                if n >? M then
                  let '(out, r) := get_int min_val max_val rest in
                  (OutAtMost M :: out, r)
                else ([], Ret (n, rest))
            | None => ([], Ret (n, rest))
            end
      | None =>
          match max_val with
          | Some M =>
              if n >? M then
                let '(out, r) := get_int min_val max_val rest in
                (OutAtMost M :: out, r)
              else ([], Ret (n, rest))
          | None => ([], Ret (n, rest))
          end
      end
  | Junk _ :: rest =>
      let '(out, r) := get_int min_val max_val rest in (OutNotInteger :: out, r)
  end.

(** [s[::-1]] as a sequence of characters. *)
Definition reversed (s : string) : list ascii := rev (list_ascii_of_string s).

(** [sum(1 for a, b in zip(secret_s[::-1], guess_s[::-1]) if a == b)]. *)
Definition count_matches (secret_s guess_s : string) : Z :=
  Z.of_nat
    (length
       (List.filter (fun ab : ascii * ascii => Ascii.eqb (fst ab) (snd ab))
          (combine (reversed secret_s) (reversed guess_s)))).

(** The digit-match part of the hint. *)
Definition digit_hint (secret guess : Z) : string :=
  if (secret <? 10000) && (guess <? 10000) then
    let matches := count_matches (str secret) (str guess) in
    if negb (matches =? 0) then
      " (Digits from right matched: " +:+ str matches +:+ ")"
    else ""
  else "".

(** Binary64 floats.  [float_of_int] is the conversion of an integer
    (rounded to nearest, ties to even), [float_0_02] the double nearest to
    0.02, and [float_value] the rational a finite double stands for.  The
    conversion of an integer beyond the range of doubles gives an infinity
    here, where Python raises [OverflowError]: [converts] tells the integers
    for which it does not. *)
Definition float_of_int (n : Z) : spec_float := binary_normalize 53 1024 n 0 false.

Definition float_0_02 : spec_float := S754_finite false 5764607523034235 (-58).

Definition float_value (x : spec_float) : Q :=
  match x with
  | S754_finite s m e =>
      let v :=
        if 0 <=? e then inject_Z (Zpos m * 2 ^ e)
        else Qmake (Zpos m) (Z.to_pos (2 ^ (- e))) in
      if s then Qopp v else v
  | _ => 0%Q
  end.


(** The value of [secret * 0.02]: the product of two doubles, rounded. *)
Definition double_product (secret : Z) : Q :=
  float_value (SFmul 53 1024 (float_of_int secret) float_0_02).

(** The bound of the first closeness test:
    [max(1, (secret * 0.02 if secret else 2))].  Comparing an integer with a
    float is exact in Python, so the bound is kept as the rational it
    denotes.  [give_hint] is used with secrets that convert to a double. *)
Definition extremely_close_bound (secret : Z) : Q :=
  pymax 1 (if negb (secret =? 0) then double_product secret else 2)%Q.

(** The same test with the difference converted to a double too, as a
    check on the ranges of the difficulty table. *)
Definition float_bound (secret : Z) : spec_float :=
  let x :=
    if negb (secret =? 0)
    then SFmul 53 1024 (float_of_int secret) float_0_02
    else float_of_int 2 in
  if SFltb (float_of_int 1) x then x else float_of_int 1.

Definition float_extremely_close (secret diff : Z) : bool :=
  SFleb (float_of_int diff) (float_bound secret).

(** [give_hint(secret, guess, attempt, max_attempts)].  The model covers
    the secrets that convert to a double, as every secret drawn by
    [play_round] does; for a secret beyond the range of doubles and a guess
    off it, Python raises [OverflowError] at the product. *)
Definition give_hint (secret guess : Z) (attempt max_attempts : Z) : string :=
  let diff := Z.abs (secret - guess) in
  if diff =? 0 then "Correct!"
  else
    let basic :=
      if Qle_bool (inject_Z diff) (extremely_close_bound secret)
      then "You're extremely close!"
      else if diff <=? 3 then "Very close."
      else if diff <=? 10 then "Close."
      else "Not that close." in
    let hl := if guess <? secret then "higher" else "lower" in
    basic +:+ " Try " +:+ hl +:+ "." +:+ digit_hint secret guess.

(** The dictionary [play_round] returns. *)
Definition round_result (win : bool) (attempts : nat) (secret : Z)
  : gmap string value :=
  list_to_map
    [ ("win"%string, VBool win);
      ("attempts"%string, VInt (Z.of_nat attempts));
      ("secret"%string, VInt secret) ].

(** The variables that change in the loop of [play_round]: the guesses so
    far, [attempts_left], the number of clock readings taken and the unread
    input. *)
Record loop_state : Type := LoopState {
  guesses : list Z;
  attempts_left : option Z;
  ticks : nat;
  pending : list line
}.

Definition emit {A : Type} (out : list event) (r : list event * A)
  : list event * A :=
  (out ++ fst r, snd r).

(** The [while True:] loop of [play_round], unfolded at most [fuel] times. *)
Fixpoint round_loop (fuel : nat) (cfg : profile) (secret : Z) (clock : nat -> Q)
    (st : loop_state) : list event * outcome (gmap string value) :=
  match fuel with
  | O => ([], OutOfFuel)
  | S fuel' =>
      let lo := p_min cfg in
      let hi := p_max cfg in
      let timed := truthy_opt (p_time_limit cfg) in
      let time_limit := default 0 (p_time_limit cfg) in
      (* time check *)
      let elapsed := clock (ticks st) in
      let remain := pymax 0 (inject_Z time_limit - elapsed)%Q in
      if timed && Qgtb elapsed (inject_Z time_limit) then
        ([OutTimeUp], Ret (round_result false (length (guesses st)) secret))
      else
        let out_timer := if timed then [OutTimer (py_int remain)] else [] in
        let ticks' := if timed then S (ticks st) else ticks st in
        (* attempts check *)
        if match attempts_left st with Some n => n <=? 0 | None => false end then
          (out_timer ++ [OutNoAttempts],
           Ret (round_result false (length (guesses st)) secret))
        else
          (* read guess safely *)
          match get_int (Some lo) (Some hi) (pending st) with
          | (out_read, Raise e) => (out_timer ++ out_read, Raise e)
          | (out_read, OutOfFuel) => (out_timer ++ out_read, OutOfFuel)
          | (out_read, Ret (guess, rest)) =>
              let guesses' := guesses st ++ [guess] in
              if guess =? secret then
                (out_timer ++ out_read ++ [InGuess guess; OutCorrect],
                 Ret (round_result true (length guesses') secret))
              else
                let mh :=
                  give_hint secret guess (Z.of_nat (length guesses'))
                    (if truthy_opt (p_attempts cfg)
                     then default 0 (p_attempts cfg) else 999) in
                let attempts_left' := (fun n => n - 1) <$> attempts_left st in
                let out_left :=
                  match attempts_left' with
                  | Some n => [OutAttemptsLeft n]
                  | None => []
                  end in
                let out_tip :=
                  if (length guesses' =? 3)%nat then
                    let mid := (lo + hi) `div` 2 in
                    [OutTip (secret <=? mid) lo hi]
                  else [] in
                emit
                  (out_timer ++ out_read ++ [InGuess guess; OutHint mh]
                     ++ out_left ++ out_tip)
                  (round_loop fuel' cfg secret clock
                     (LoopState guesses' attempts_left' ticks' rest))
          end
  end.

(** [play_round(difficulty_key, player_name)].  [secret] is the value that
    [random.randint(lo, hi)] returned.  Every turn of the loop that does not
    return consumes a line, so one more turn than there are lines is
    enough. *)
Definition play_round (difficulty_key player_name : string) (secret : Z)
    (clock : nat -> Q) (inp : list line)
  : list event * outcome (gmap string value) :=
  match getitem DIFFICULTIES difficulty_key with
  | Ret cfg =>
      let lo := p_min cfg in
      let hi := p_max cfg in
      let attempts_left := p_attempts cfg in
      let time_limit := p_time_limit cfg in
      emit
        ([OutIntro lo hi player_name]
           ++ (if truthy_opt attempts_left
               then [OutYouHaveAttempts (default 0 attempts_left)] else [])
           ++ (if truthy_opt time_limit
               then [OutYouHaveSeconds (default 0 time_limit)] else []))
        (round_loop (S (length inp)) cfg secret clock
           (LoopState [] attempts_left 0 inp))
  | Raise e => ([], Raise e)
  | OutOfFuel => ([], OutOfFuel)
  end.

Definition base_scores : gmap string Z :=
  list_to_map
    [ ("easy"%string, 50); ("medium"%string, 120);
      ("hard"%string, 300); ("timed"%string, 200) ].

Definition compute_score (result : gmap string value) (difficulty_key : string)
  : outcome Z :=
  base ← getitem base_scores difficulty_key;
  win ← getitem result "win";
  if negb (truthy win) then Ret 0
  else
    attempts ← getitem result "attempts" ≫= as_int;
    let score := Z.max 10 (base + Z.max 0 (50 - attempts * 5)) in
    Ret score.

(* ================================================================== *)
(** * Main menu: the "play a round" branch *)
(* ================================================================== *)

(** Choice 1 of [main], after [choose_difficulty] returned [difficulty]:
    plays the round, prints the result and stores the score when it is
    positive.  Returns what was printed and the state of the highscore
    file. *)
Definition main_play (player difficulty : string) (secret : Z)
    (clock : nat -> Q) (inp : list line) (now : string) (fs : file_state)
  : list event * outcome file_state :=
  match play_round difficulty player secret clock inp with
  | (out, Ret result) =>
      match compute_score result difficulty with
      | Ret score =>
          let win := truthy (default VNone (result !! "win"%string)) in
          let out_result := [OutResult win score] in
          let out_secret :=
            match result !! "secret"%string with
            | None | Some VNone => []
            | Some s => if negb win then [OutSecretWas s] else []
            end in
          if score >? 0 then
            match add_highscore player score difficulty now fs with
            | Ret fs' => (out ++ out_result ++ out_secret ++ [OutSaved], Ret fs')
            | Raise e => (out ++ out_result ++ out_secret, Raise e)
            | OutOfFuel => (out ++ out_result ++ out_secret, OutOfFuel)
            end
          else (out ++ out_result ++ out_secret, Ret fs)
      | Raise e => (out, Raise e)
      | OutOfFuel => (out, OutOfFuel)
      end
  | (out, Raise e) => (out, Raise e)
  | (out, OutOfFuel) => (out, OutOfFuel)
  end.

(* ================================================================== *)
(** * Vocabulary of the statements *)
(* ================================================================== *)

(** A leaderboard in descending order of score: every entry scores at least
    as much as each entry after it. *)
Definition descending (lb : list entry) : Prop :=
  StronglySorted (fun a b => e_score b <= e_score a) lb.

(** The entries of a leaderboard that have score [k], in their order. *)
Definition with_score (k : Z) (lb : list entry) : list entry :=
  List.filter (fun e => e_score e =? k) lb.

(** [after] is [before] re-sorted in descending order of score with ties
    left in their order. *)
Definition stable_resort (before after : list entry) : Prop :=
  Permutation before after /\
  descending after /\
  forall k, with_score k after = with_score k before.

(** How many entries of a leaderboard score at least [s]. *)
Definition count_at_least (s : Z) (lb : list entry) : nat :=
  length (List.filter (fun e => s <=? e_score e) lb).

(** What [load_highscores] makes of a file: its records when it holds
    some, nothing otherwise. *)
Definition stored_entries (fs : file_state) : list entry :=
  match fs with
  | Stored entries => entries
  | _ => []
  end.

(** The characters of a string, and the one at position [i] counted from the
    right end (position 0 is the last character). *)
Definition chars (s : string) : list ascii := list_ascii_of_string s.





(** The first closeness test as the code decides it: against 2 when the
    secret is 0, against [max(1, secret * 0.02)] otherwise, the product being
    the one the program computes on doubles. *)
Definition extremely_close (secret diff : Z) : Prop :=
  (secret = 0 /\ diff <= 2) \/
  (secret <> 0 /\ (inject_Z diff <= Qmax 1 (double_product secret))%Q).

(** Reading a trace: the guesses recorded, the half-of-range tips, and the
    two together in the order they occurred. *)
Definition is_tip (ev : event) : bool :=
  match ev with
  | OutTip _ _ _ => true
  | _ => false
  end.

Definition is_mark (ev : event) : bool :=
  match ev with
  | InGuess _ | OutTip _ _ _ => true
  | _ => false
  end.

Definition recorded (out : list event) : list Z :=
  flat_map (fun ev => match ev with InGuess g => [g] | _ => [] end) out.

Definition tips (out : list event) : list event := List.filter is_tip out.

Definition marks (out : list event) : list event := List.filter is_mark out.

(** The tip of a round: whether the secret is in the lower half of the
    range of the profile. *)
Definition half_tip (cfg : profile) (secret : Z) : event :=
  OutTip (secret <=? (p_min cfg + p_max cfg) `div` 2) (p_min cfg) (p_max cfg).

(** The guesses [gs] made after [n] earlier ones, each followed by the tip
    when it is the third guess of the round and is wrong. *)
Fixpoint expected_marks (cfg : profile) (secret : Z) (n : nat) (gs : list Z)
  : list event :=
  match gs with
  | [] => []
  | g :: gs' =>
      InGuess g
        :: (if negb (g =? secret) && (S n =? 3)%nat
            then [half_tip cfg secret] else [])
        ++ expected_marks cfg secret (S n) gs'
  end.

(** The lines printed before the loop. *)
Definition banner (cfg : profile) (player_name : string) : list event :=
  [OutIntro (p_min cfg) (p_max cfg) player_name]
    ++ (if truthy_opt (p_attempts cfg)
        then [OutYouHaveAttempts (default 0 (p_attempts cfg))] else [])
    ++ (if truthy_opt (p_time_limit cfg)
        then [OutYouHaveSeconds (default 0 (p_time_limit cfg))] else []).

(** Insertion of a late-comer into a descending list: after every element
    whose key is at least its own. *)
Fixpoint insert_desc {A : Type} (key : A -> Z) (x : A) (l : list A) : list A :=
  match l with
  | [] => [x]
  | y :: l' => if key y <? key x then x :: y :: l' else y :: insert_desc key x l'
  end.

(* ================================================================== *)
(** * The rest of the program *)
(* ================================================================== *)

(** ** Showing the highscores *)

(** What [display_highscores] prints, line by line. *)
Inductive display_line : Type :=
  | ShowNoHighscores
  | ShowTitle
  | ShowRow (rank : Z) (name : string) (score : Z) (difficulty : string)
      (dt : string)
  | ShowBlank.

(** [l[:limit]]: the first [limit] elements, or all but the last [-limit]
    when [limit] is negative. *)
Definition slice_to {A : Type} (limit : Z) (l : list A) : list A :=
  if 0 <=? limit then take (Z.to_nat limit) l
  else take (length l - Z.to_nat (- limit)) l.

(** [enumerate(l, start=start)]. *)
Fixpoint enumerate {A : Type} (start : Z) (l : list A) : list (Z * A) :=
  match l with
  | [] => []
  | x :: l' => (start, x) :: enumerate (start + 1) l'
  end.

(** [date[:19].replace("T", " ")].  Strings are sequences of bytes here;
    the dates the program writes are ASCII. *)
Definition shown_date (date : string) : string :=
  string_of_list_ascii
    (map (fun c : ascii => if Ascii.eqb c "T" then " "%char else c)
       (take 19 (chars date))).

Definition display_highscores (limit : Z) (fs : file_state)
  : outcome (list display_line) :=
  entries ← load_highscores fs;
  match entries with
  | [] => Ret [ShowNoHighscores]
  | _ =>
      Ret ([ShowTitle]
             ++ map (fun ie : Z * entry =>
                       ShowRow (fst ie) (e_name (snd ie)) (e_score (snd ie))
                         (e_difficulty (snd ie)) (shown_date (e_date (snd ie))))
                  (enumerate 1 (slice_to limit entries))
             ++ [ShowBlank])
  end.

(** The rows among the lines printed. *)
Definition rows (lines : list display_line) : list display_line :=
  List.filter
    (fun l => match l with ShowRow _ _ _ _ _ => true | _ => false end) lines.

Definition row_score (l : display_line) : Z :=
  match l with
  | ShowRow _ _ score _ _ => score
  | _ => 0
  end.

(** ** Choosing the difficulty *)

(** What [choose_difficulty] prints: the title, one line per mode with what
    its description mentions, and a complaint per rejected answer. *)
Inductive menu_event : Type :=
  | MenuTitle
  | MenuOption (k : string) (lo hi : Z) (attempts time_limit : option Z)
  | MenuInvalid.

(** The keys of [DIFFICULTIES] in the order the dictionary lists them. *)
Definition difficulty_order : list string :=
  ["easy"%string; "medium"%string; "hard"%string; "timed"%string].

Definition menu_options : list menu_event :=
  flat_map
    (fun k =>
       match DIFFICULTIES !! k with
       | Some d =>
           [MenuOption k (p_min d) (p_max d)
              (if truthy_opt (p_attempts d) then p_attempts d else None)
              (if truthy_opt (p_time_limit d) then p_time_limit d else None)]
       | None => []
       end)
    difficulty_order.

(** The [while True:] of [choose_difficulty]; an answer is the line typed,
    after [strip().lower()]. *)
Fixpoint read_pick (answers : list string)
  : list menu_event * option (string * list string) :=
  match answers with
  | [] => ([], None)
  | pick :: rest =>
      match DIFFICULTIES !! pick with
      | Some _ => ([], Some (pick, rest))
      | None => let '(out, r) := read_pick rest in (MenuInvalid :: out, r)
      end
  end.

Definition choose_difficulty (answers : list string)
  : list menu_event * option (string * list string) :=
  let '(out, r) := read_pick answers in
  (MenuTitle :: menu_options ++ out, r).

(** Choice 1 of [main] as a whole: the difficulty is asked for, then the
    round is played and scored.  The answers typed at the difficulty prompt
    and the lines typed at the guess prompt are given apart, each in the form
    its reader takes them.  The end of the input while choosing is the
    [EOFError] of [input]. *)
Definition main_choice_1 (player : string) (answers : list string) (secret : Z)
    (clock : nat -> Q) (inp : list line) (now : string) (fs : file_state)
  : list menu_event * (list event * outcome file_state) :=
  match choose_difficulty answers with
  | (menu, Some (difficulty, _)) =>
      (menu, main_play player difficulty secret clock inp now fs)
  | (menu, None) => (menu, ([], Raise EOFError))
  end.

(** ** Vocabulary for the properties of a round *)

(** Whether [get_int] takes a number, and a line. *)
Definition in_range (min_val max_val : option Z) (n : Z) : bool :=
  match min_val with Some m => m <=? n | None => true end
  && match max_val with Some M => n <=? M | None => true end.

Definition accepts (min_val max_val : option Z) (l : line) : bool :=
  match l with
  | Number n => in_range min_val max_val n
  | _ => false
  end.

(** How many lines of the input [get_int] would take. *)
Definition count_accepted (min_val max_val : option Z) (inp : list line) : nat :=
  length (List.filter (accepts min_val max_val) inp).

(** The lines [get_int] passes over with a complaint, and the complaint. *)
Definition passed_over (min_val max_val : option Z) (l : line) : bool :=
  match l with
  | Blank | Junk _ => true
  | Number n => negb (in_range min_val max_val n)
  | Refused _ => false
  end.

Definition complaint (min_val max_val : option Z) (l : line) : list event :=
  match l with
  | Blank => [OutEnterNumber]
  | Junk _ => [OutNotInteger]
  | Refused _ => []
  | Number n =>
      match min_val, max_val with
      | Some m, Some M =>
          if n <? m then [OutAtLeast m] else if n >? M then [OutAtMost M] else []
      | Some m, None => if n <? m then [OutAtLeast m] else []
      | None, Some M => if n >? M then [OutAtMost M] else []
      | None, None => []
      end
  end.

(** The lines [int] does not refuse. *)
Definition readable (l : line) : bool :=
  match l with
  | Refused _ => false
  | _ => true
  end.

(** The hints and the "attempts left" counts of a trace, in order. *)
Definition hints (out : list event) : list string :=
  flat_map (fun ev => match ev with OutHint s => [s] | _ => [] end) out.

Definition attempts_shown (out : list event) : list Z :=
  flat_map (fun ev => match ev with OutAttemptsLeft n => [n] | _ => [] end) out.

Definition timers_shown (out : list event) : list Z :=
  flat_map (fun ev => match ev with OutTimer n => [n] | _ => [] end) out.

(** [a - 1, a - 2, ..., a - w]. *)
Definition countdown (a : Z) (w : nat) : list Z :=
  map (fun i => a - 1 - Z.of_nat i) (seq 0 w).

(** The parts of one turn of the loop of [play_round]. *)
Definition time_is_up (cfg : profile) (clock : nat -> Q) (st : loop_state) : bool :=
  truthy_opt (p_time_limit cfg)
  && Qgtb (clock (ticks st)) (inject_Z (default 0 (p_time_limit cfg))).

Definition timer_line (cfg : profile) (clock : nat -> Q) (st : loop_state)
  : list event :=
  let time_limit := default 0 (p_time_limit cfg) in
  if truthy_opt (p_time_limit cfg)
  then [OutTimer (py_int (pymax 0 (inject_Z time_limit - clock (ticks st))%Q))]
  else [].

Definition out_of_attempts (st : loop_state) : bool :=
  match attempts_left st with
  | Some n => n <=? 0
  | None => false
  end.

Definition feedback (cfg : profile) (secret : Z) (st : loop_state) (g : Z)
  : list event :=
  [InGuess g;
   OutHint (give_hint secret g (Z.of_nat (length (guesses st ++ [g])))
              (if truthy_opt (p_attempts cfg)
               then default 0 (p_attempts cfg) else 999))]
    ++ match (fun n => n - 1) <$> attempts_left st with
       | Some n => [OutAttemptsLeft n]
       | None => []
       end
    ++ (if (length (guesses st ++ [g]) =? 3)%nat
        then [half_tip cfg secret] else []).

Definition next_state (cfg : profile) (st : loop_state) (g : Z)
    (rest : list line) : loop_state :=
  LoopState (guesses st ++ [g]) ((fun n => n - 1) <$> attempts_left st)
    (if truthy_opt (p_time_limit cfg) then S (ticks st) else ticks st) rest.

(** The five ways a turn can go. *)
Inductive turn_view (fuel : nat) (cfg : profile) (secret : Z)
    (clock : nat -> Q) (st : loop_state)
  : list event * outcome (gmap string value) -> Prop :=
  | TurnTimeUp :
      time_is_up cfg clock st = true ->
      turn_view fuel cfg secret clock st
        ([OutTimeUp], Ret (round_result false (length (guesses st)) secret))
  | TurnNoAttempts :
      time_is_up cfg clock st = false ->
      out_of_attempts st = true ->
      turn_view fuel cfg secret clock st
        (timer_line cfg clock st ++ [OutNoAttempts],
         Ret (round_result false (length (guesses st)) secret))
  | TurnInputFails out_read e :
      time_is_up cfg clock st = false ->
      out_of_attempts st = false ->
      get_int (Some (p_min cfg)) (Some (p_max cfg)) (pending st)
      = (out_read, Raise e) ->
      turn_view fuel cfg secret clock st
        (timer_line cfg clock st ++ out_read, Raise e)
  | TurnWon out_read rest :
      time_is_up cfg clock st = false ->
      out_of_attempts st = false ->
      get_int (Some (p_min cfg)) (Some (p_max cfg)) (pending st)
      = (out_read, Ret (secret, rest)) ->
      turn_view fuel cfg secret clock st
        (timer_line cfg clock st ++ out_read ++ [InGuess secret; OutCorrect],
         Ret (round_result true (length (guesses st ++ [secret])) secret))
  | TurnWrong out_read g rest :
      time_is_up cfg clock st = false ->
      out_of_attempts st = false ->
      get_int (Some (p_min cfg)) (Some (p_max cfg)) (pending st)
      = (out_read, Ret (g, rest)) ->
      g <> secret ->
      turn_view fuel cfg secret clock st
        (emit (timer_line cfg clock st ++ out_read ++ feedback cfg secret st g)
           (round_loop fuel cfg secret clock (next_state cfg st g rest))).

(* ================================================================== *)
(** * The stable sort *)
(* ================================================================== *)

Section SortFacts.
Context {A : Type} (key : A -> Z).

Let asc : list A -> Prop := StronglySorted (fun a b => key a <= key b).
Let desc : list A -> Prop := StronglySorted (fun a b => key b <= key a).
Let keyed (k : Z) : list A -> list A := List.filter (fun a => key a =? k).

Lemma insort_perm x l : Permutation (insort key x l) (x :: l).
Proof.
  induction l as [|y l IH]; simpl; [reflexivity|].
  destruct (key y <? key x); [|reflexivity].
  rewrite IH. apply perm_swap.
Qed.

Lemma sort_stable_perm l : Permutation (sort_stable key l) l.
Proof.
  induction l as [|x l IH]; simpl; [reflexivity|].
  rewrite insort_perm. now constructor.
Qed.

Lemma insort_asc x l : asc l -> asc (insort key x l).
Proof.
  unfold asc. induction l as [|y l IH]; simpl; intros Hs.
  - repeat constructor.
  - apply StronglySorted_inv in Hs as [Hl Hy].
    destruct (key y <? key x) eqn:E.
    + apply Z.ltb_lt in E. constructor; [auto|].
      rewrite List.Forall_forall in Hy |- *. intros z Hz.
      apply (Permutation_in _ (insort_perm x l)) in Hz.
      destruct Hz as [<-|Hz]; [lia | auto].
    + apply Z.ltb_ge in E. constructor.
      * constructor; assumption.
      * constructor; [assumption|].
        eapply List.Forall_impl; [|exact Hy]. simpl. intros; lia.
Qed.

Lemma sort_stable_asc l : asc (sort_stable key l).
Proof.
  induction l as [|x l IH]; simpl; [constructor | now apply insort_asc].
Qed.

Lemma keyed_insort k x l : keyed k (insort key x l) = keyed k (x :: l).
Proof.
  unfold keyed. induction l as [|y l IH]; [reflexivity|].
  cbn [insort]. destruct (key y <? key x) eqn:E; [|reflexivity].
  apply Z.ltb_lt in E. cbn [List.filter] in *. rewrite IH.
  destruct (key y =? k) eqn:Ey, (key x =? k) eqn:Ex; try reflexivity.
  apply Z.eqb_eq in Ey, Ex. lia.
Qed.

Lemma keyed_sort_stable k l : keyed k (sort_stable key l) = keyed k l.
Proof.
  induction l as [|x l IH]; [reflexivity|].
  cbn [sort_stable foldr]. fold (sort_stable key l).
  rewrite keyed_insort. unfold keyed in *. cbn [List.filter]. now rewrite IH.
Qed.

(** The sort leaves equal keys in their order, also when reversed. *)
Lemma keyed_sorted k l reverse : keyed k (sorted key l reverse) = keyed k l.
Proof.
  unfold sorted. destruct reverse; [|apply keyed_sort_stable].
  unfold keyed. rewrite List.filter_rev. fold (keyed k (sort_stable key (rev l))).
  rewrite keyed_sort_stable. unfold keyed.
  now rewrite List.filter_rev, rev_involutive.
Qed.

Lemma sorted_perm l reverse : Permutation (sorted key l reverse) l.
Proof.
  unfold sorted. destruct reverse; [|apply sort_stable_perm].
  rewrite <- Permutation_rev, sort_stable_perm. symmetry. apply Permutation_rev.
Qed.

(** ** The descending sort as repeated insertion from the right *)

Lemma insert_desc_snoc_small x y l :
  key y < key x -> insert_desc key x (l ++ [y]) = insert_desc key x l ++ [y].
Proof.
  intros Hy. induction l as [|z l IH]; simpl.
  - apply Z.ltb_lt in Hy. now rewrite Hy.
  - destruct (key z <? key x); [reflexivity | now rewrite IH].
Qed.

Lemma insert_desc_last x l :
  Forall (fun z => key x <= key z) l -> insert_desc key x l = l ++ [x].
Proof.
  induction 1 as [|z l Hz _ IH]; simpl; [reflexivity|].
  apply Z.ltb_ge in Hz. now rewrite Hz, IH.
Qed.

Lemma rev_insort x l :
  asc l -> rev (insort key x l) = insert_desc key x (rev l).
Proof.
  unfold asc. induction l as [|y l IH]; intros Hs; [reflexivity|].
  apply StronglySorted_inv in Hs as [Hl Hy].
  cbn [insort]. destruct (key y <? key x) eqn:E.
  - apply Z.ltb_lt in E. cbn [rev]. rewrite IH by assumption.
    now rewrite insert_desc_snoc_small.
  - apply Z.ltb_ge in E. symmetry. cbn [rev]. rewrite <- app_assoc.
    rewrite insert_desc_last; [now rewrite <- app_assoc|].
    apply List.Forall_app. split.
    + apply List.Forall_rev. eapply List.Forall_impl; [|exact Hy]. simpl. intros; lia.
    + now constructor.
Qed.

Lemma sorted_rev_snoc x l :
  sorted key (l ++ [x]) true = insert_desc key x (sorted key l true).
Proof.
  unfold sorted. rewrite rev_app_distr. cbn [rev app sort_stable foldr].
  fold (sort_stable key (rev l)). apply rev_insort, sort_stable_asc.
Qed.

Lemma insert_desc_perm x l : Permutation (insert_desc key x l) (x :: l).
Proof.
  induction l as [|y l IH]; simpl; [reflexivity|].
  destruct (key y <? key x); [reflexivity|].
  rewrite IH. apply perm_swap.
Qed.

Lemma insert_desc_desc x l : desc l -> desc (insert_desc key x l).
Proof.
  unfold desc. induction l as [|y l IH]; simpl; intros Hs.
  - repeat constructor.
  - apply StronglySorted_inv in Hs as [Hl Hy].
    destruct (key y <? key x) eqn:E.
    + apply Z.ltb_lt in E. constructor.
      * constructor; assumption.
      * constructor; [lia|].
        eapply List.Forall_impl; [|exact Hy]. simpl. intros; lia.
    + apply Z.ltb_ge in E. constructor; [auto|].
      rewrite List.Forall_forall in Hy |- *. intros z Hz.
      apply (Permutation_in _ (insert_desc_perm x l)) in Hz.
      destruct Hz as [<-|Hz]; [lia | auto].
Qed.

Lemma sorted_rev_desc l : desc (sorted key l true).
Proof.
  induction l as [|x l IH] using rev_ind.
  - constructor.
  - rewrite sorted_rev_snoc. now apply insert_desc_desc.
Qed.

(** A descending list is left as it is. *)
Lemma insert_desc_fold_id l :
  desc l -> sorted key l true = l.
Proof.
  unfold desc. induction l as [|x l IH] using rev_ind; intros Hs; [reflexivity|].
  rewrite sorted_rev_snoc.
  apply StronglySorted_app in Hs. destruct Hs as (Hx & Hl & Hm).
  rewrite (IH Hl). apply insert_desc_last.
  rewrite List.Forall_forall. intros z Hz.
  apply (Hx z x); [now apply list_elem_of_In | apply list_elem_of_In; now left].
Qed.

Lemma desc_take n l : desc l -> desc (take n l).
Proof.
  unfold desc. intros Hs. rewrite <- (firstn_skipn n l) in Hs.
  apply StronglySorted_app in Hs. now destruct Hs as (Hx & Hl & Hm).
Qed.

(** Truncation commutes with a late insertion. *)
Lemma take_insert_desc n x l :
  take n (insert_desc key x l) = take n (insert_desc key x (take n l)).
Proof.
  revert n. induction l as [|y l IH]; intros [|n]; try reflexivity.
  cbn [take firstn insert_desc]. destruct (key y <? key x).
  - cbn [take firstn]. f_equal.
    destruct n as [|n]; [reflexivity|]. cbn [take firstn]. f_equal.
    symmetry. rewrite firstn_firstn. f_equal. lia.
  - cbn [take firstn]. f_equal. apply IH.
Qed.

(** Where the late-comer lands: behind a prefix of keys at least its own. *)
Lemma insert_desc_split x l :
  exists l1 l2,
    l = l1 ++ l2 /\ insert_desc key x l = l1 ++ x :: l2 /\
    Forall (fun z => key x <= key z) l1 /\
    (desc l -> Forall (fun z => key z < key x) l2).
Proof.
  induction l as [|y l (l1 & l2 & -> & Hi & H1 & H2)]; simpl.
  - exists [], []. repeat split; auto.
  - destruct (key y <? key x) eqn:E.
    + apply Z.ltb_lt in E. exists [], (y :: l1 ++ l2). repeat split; auto.
      unfold desc. intros Hs. apply StronglySorted_inv in Hs as [_ Hy].
      constructor; [assumption|].
      eapply List.Forall_impl; [|exact Hy]. simpl. intros; lia.
    + apply Z.ltb_ge in E. exists (y :: l1), l2. rewrite Hi.
      repeat split; auto.
      unfold desc. intros Hs. apply StronglySorted_inv in Hs as [Hs _]. auto.
Qed.
End SortFacts.

(* ================================================================== *)
(** * Highscores: loading, adding, ranking *)
(* ================================================================== *)

Lemma load_highscores_eq fs : load_highscores fs = Ret (stored_entries fs).
Proof. destruct fs; reflexivity. Qed.

Lemma add_highscore_eq name score difficulty now fs :
  add_highscore name score difficulty now fs
  = Ret (Stored (take 50 (sorted e_score
       (stored_entries fs ++ [Entry name score difficulty (now +:+ "Z")]) true))).
Proof. unfold add_highscore. rewrite load_highscores_eq. reflexivity. Qed.

(** Truncating between two batches of additions changes nothing that the
    final truncation keeps. *)
Lemma take_sorted_take n (l more : list entry) :
  take n (sorted e_score (take n (sorted e_score l true) ++ more) true)
  = take n (sorted e_score (l ++ more) true).
Proof.
  induction more as [|m more IH] using rev_ind.
  - rewrite !app_nil_r, insert_desc_fold_id.
    + rewrite firstn_firstn. f_equal. lia.
    + apply desc_take, sorted_rev_desc.
  - rewrite !app_assoc, !sorted_rev_snoc.
    rewrite take_insert_desc, IH, <- take_insert_desc. reflexivity.
Qed.

(** A run of additions leaves the top 50 of the stable descending sort of
    everything: what was there, then the new entries in the order added. *)
Lemma add_all_eq r reqs fs :
  add_all (r :: reqs) fs
  = Ret (Stored (take 50 (sorted e_score
       (stored_entries fs ++ map request_entry (r :: reqs)) true))).
Proof.
  revert r fs. induction reqs as [|r' reqs IH]; intros [[[name score] difficulty] now] fs.
  - cbn [add_all]. rewrite add_highscore_eq. reflexivity.
  - cbn [add_all] in *. rewrite add_highscore_eq.
    cbn [mbind outcome_bind]. specialize (IH r' (Stored (take 50 (sorted e_score
       (stored_entries fs ++ [Entry name score difficulty (now +:+ "Z")]) true)))).
    destruct r' as [[[name' score'] difficulty'] now']. rewrite IH.
    cbn [stored_entries]. rewrite take_sorted_take.
    cbn [map request_entry]. now rewrite <- app_assoc.
Qed.

Lemma with_score_take_prefix k n lb : with_score k (take n lb) `prefix_of` with_score k lb.
Proof.
  exists (with_score k (drop n lb)). unfold with_score.
  now rewrite <- List.filter_app, firstn_skipn.
Qed.

Lemma sorted_stable_resort lb : stable_resort lb (sorted e_score lb true).
Proof.
  split; [|split].
  - symmetry. apply sorted_perm.
  - apply (sorted_rev_desc e_score).
  - intros k. apply (keyed_sorted e_score).
Qed.

Lemma filter_length_perm {A : Type} (f : A -> bool) (l l' : list A) :
  Permutation l l' -> length (List.filter f l) = length (List.filter f l').
Proof.
  induction 1 as [|x l l' _ IH|x y l|l l' l'' _ IH1 _ IH2]; simpl.
  - reflexivity.
  - destruct (f x); simpl; congruence.
  - destruct (f x), (f y); reflexivity.
  - congruence.
Qed.

Lemma filter_all {A : Type} (f : A -> bool) (l : list A) :
  Forall (fun a => f a = true) l -> List.filter f l = l.
Proof. induction 1 as [|a l Ha _ IH]; simpl; [reflexivity|]. now rewrite Ha, IH. Qed.

Lemma filter_none {A : Type} (f : A -> bool) (l : list A) :
  Forall (fun a => f a = false) l -> List.filter f l = [].
Proof. induction 1 as [|a l Ha _ IH]; simpl; [reflexivity|]. now rewrite Ha, IH. Qed.


(** C2.  After one or more additions, from any state of the file, the file holds
    the first 50 entries of a stable descending re-sort of the loaded entries
    followed by the added ones: at most 50 entries, in descending order of
    score, and for every score the entries that have it are the first of
    those in insertion order. *)
Theorem add_all_leaderboard (fs : file_state) (r : add_request)
    (reqs : list add_request) :
  exists prior lb resorted,
    load_highscores fs = Ret prior /\
    add_all (r :: reqs) fs = Ret (Stored lb) /\
    load_highscores (Stored lb) = Ret lb /\
    stable_resort (prior ++ map request_entry (r :: reqs)) resorted /\
    lb = take 50 resorted /\
    (length lb <= 50)%nat /\
    descending lb /\
    forall k,
      with_score k lb `prefix_of`
      with_score k (prior ++ map request_entry (r :: reqs)).
Proof.
  set (all := stored_entries fs ++ map request_entry (r :: reqs)).
  exists (stored_entries fs), (take 50 (sorted e_score all true)),
    (sorted e_score all true).
  split; [apply load_highscores_eq|].
  split; [apply add_all_eq|].
  split; [reflexivity|].
  split; [apply sorted_stable_resort|].
  split; [reflexivity|].
  split; [apply firstn_le_length|].
  split; [apply desc_take, sorted_rev_desc|].
  intros k. fold all.
  replace (with_score k all) with (with_score k (sorted e_score all true))
    by apply (keyed_sorted e_score).
  apply with_score_take_prefix.
Qed.

(** On the three states, the wider reading of the file agrees with the
    narrower one. *)
Lemma load_highscores_at_on_disk fs :
  load_highscores_at (OnDisk fs) = Ret (DocList (stored_entries fs)).
Proof. destruct fs; reflexivity. Qed.

Lemma add_highscore_at_on_disk name score difficulty now fs :
  add_highscore_at name score difficulty now (OnDisk fs)
  = (fs' ← add_highscore name score difficulty now fs; Ret (OnDisk fs')).
Proof.
  unfold add_highscore_at. rewrite load_highscores_at_on_disk, add_highscore_eq.
  reflexivity.
Qed.

(** Whatever is at the path, loading returns. *)
Lemma load_highscores_at_returns a : exists d, load_highscores_at a = Ret d.
Proof. destruct a as [[| |]| |]; eexists; reflexivity. Qed.

(** The round trip does not hold for every state of the storage: on a file
    that holds valid JSON that is not a list the addition raises at
    [append], and on a directory it raises at the write; no board with the
    new entry is loaded after it. *)
Lemma round_trip_fails_off_lists :
  load_highscores_at NotAList = Ret DocOther /\
  add_highscore_at "Ann" 85 "easy" "2024-05-01T10:00:00" NotAList
  = Raise AttributeError /\
  add_highscore_at "Ann" 85 "easy" "2024-05-01T10:00:00" Directory
  = Raise OSError /\
  ~ (exists lb,
       (add_highscore_at "Ann" 85 "easy" "2024-05-01T10:00:00" NotAList
          ≫= load_highscores_at) = Ret (DocList lb) /\
       In (Entry "Ann" 85 "easy" "2024-05-01T10:00:00Z") lb).
Proof.
  split; [reflexivity|]. split; [reflexivity|]. split; [reflexivity|].
  intros (lb & H & _). discriminate.
Qed.

(** C9.  Adding an entry and loading again, from a file that is missing, or
    that can be rewritten and either cannot be read or parsed or holds a
    list of records, and with a write that succeeds: when fewer than 50 of
    the entries loaded before score at least as much as the new one, the new
    entry is on the board; otherwise the cap has dropped it, and the board
    is the top 50 of the earlier entries, all of which score at least as
    much. *)
Theorem add_then_load (fs : file_state) (name : string) (score : Z)
    (difficulty now : string) :
  exists prior lb,
    load_highscores fs = Ret prior /\
    (add_highscore name score difficulty now fs ≫= load_highscores) = Ret lb /\
    (add_highscore_at name score difficulty now (OnDisk fs) ≫= load_highscores_at)
    = Ret (DocList lb) /\
    if (count_at_least score prior <? 50)%nat
    then In (Entry name score difficulty (now +:+ "Z")) lb
    else lb = take 50 (sorted e_score prior true) /\
         length lb = 50%nat /\
         Forall (fun x => score <= e_score x) lb.
Proof.
  set (e := Entry name score difficulty (now +:+ "Z")).
  exists (stored_entries fs), (take 50 (sorted e_score (stored_entries fs ++ [e]) true)).
  split; [apply load_highscores_eq|].
  split; [rewrite add_highscore_eq; reflexivity|].
  split; [rewrite add_highscore_at_on_disk, add_highscore_eq; reflexivity|].
  rewrite sorted_rev_snoc.
  destruct (insert_desc_split e_score e (sorted e_score (stored_entries fs) true))
    as (l1 & l2 & Hl & Hi & H1 & H2).
  specialize (H2 (sorted_rev_desc e_score _)).
  assert (Hc : count_at_least score (stored_entries fs) = length l1).
  { unfold count_at_least.
    rewrite (filter_length_perm _ _ _
               (Permutation_sym (sorted_perm e_score (stored_entries fs) true))).
    rewrite Hl, List.filter_app, filter_all, filter_none, app_nil_r; [reflexivity| |].
    - eapply List.Forall_impl; [|exact H2]. simpl. intros; lia.
    - eapply List.Forall_impl; [|exact H1]. simpl. intros; lia. }
  rewrite Hc, Hi. destruct (length l1 <? 50)%nat eqn:E.
  - apply Nat.ltb_lt in E. rewrite firstn_app, firstn_all2 by lia.
    apply in_or_app. right.
    destruct (50 - length l1)%nat eqn:E'; [lia|]. now left.
  - apply Nat.ltb_ge in E.
    assert (Ht : forall tl, take 50 (l1 ++ tl) = take 50 l1).
    { intros tl. rewrite firstn_app.
      replace (50 - length l1)%nat with 0%nat by lia. apply app_nil_r. }
    rewrite Hl, !Ht. split; [reflexivity|]. split.
    + rewrite length_take. lia.
    + rewrite <- (firstn_skipn 50 l1) in H1. now apply List.Forall_app in H1.
Qed.

(* ================================================================== *)
(** * Scoring *)
(* ================================================================== *)

(** The base score of each mode, as the scoring contract lists them. *)
Lemma base_scores_table key base :
  In (key, base)
     [("easy"%string, 50); ("medium"%string, 120);
      ("hard"%string, 300); ("timed"%string, 200)] ->
  getitem base_scores key = Ret base /\ 50 <= base.
Proof.
  simpl. intros [H|[H|[H|[H|[]]]]]; inversion H; subst; split; (reflexivity || lia).
Qed.

Lemma compute_score_lost result key base :
  getitem base_scores key = Ret base ->
  result !! "win"%string = Some (VBool false) ->
  compute_score result key = Ret 0.
Proof.
  intros Hb Hw. unfold compute_score. rewrite Hb. cbn [mbind outcome_bind].
  unfold getitem. now rewrite Hw.
Qed.

Lemma compute_score_won result key base attempts :
  getitem base_scores key = Ret base ->
  result !! "win"%string = Some (VBool true) ->
  result !! "attempts"%string = Some (VInt attempts) ->
  compute_score result key = Ret (Z.max 10 (base + Z.max 0 (50 - attempts * 5))).
Proof.
  intros Hb Hw Ha. unfold compute_score. rewrite Hb. cbn [mbind outcome_bind].
  unfold getitem. rewrite Hw. cbn [truthy negb]. now rewrite Ha.
Qed.

(** C1.  For a result with its [win] flag and attempt count, and a key of the four
    modes with its base score, [compute_score] returns 0 when the round was
    not won and [max(10, base + max(0, 50 - attempts*5))] when it was; the
    value is never negative. *)
Theorem compute_score_spec (result : gmap string value) (difficulty_key : string)
    (won : bool) (attempts_used base : Z) :
  result !! "win"%string = Some (VBool won) ->
  result !! "attempts"%string = Some (VInt attempts_used) ->
  In (difficulty_key, base)
     [("easy"%string, 50); ("medium"%string, 120);
      ("hard"%string, 300); ("timed"%string, 200)] ->
  exists score,
    compute_score result difficulty_key = Ret score /\
    0 <= score /\
    score = if won then Z.max 10 (base + Z.max 0 (50 - attempts_used * 5)) else 0.
Proof.
  intros Hw Ha Hk. apply base_scores_table in Hk as [Hb _]. destruct won.
  - eexists. split; [eapply compute_score_won; eassumption|]. split; lia.
  - exists 0. split; [eapply compute_score_lost; eassumption|]. split; lia.
Qed.

Lemma compute_score_spec_witness :
  exists score,
    compute_score (round_result true 3 27) "easy" = Ret score /\
    0 <= score /\
    score = Z.max 10 (50 + Z.max 0 (50 - 3 * 5)).
Proof.
  apply (compute_score_spec (round_result true 3 27) "easy" true 3 50).
  - reflexivity.
  - reflexivity.
  - simpl. left. reflexivity.
Defined.

(** C10.  A won round scores at least the base of its mode, hence at least 50, and
    the lower clamp at 10 is idle: the score is the base plus the attempt
    bonus. *)
Theorem won_score_at_least_base (result : gmap string value)
    (difficulty_key : string) (attempts_used base : Z) :
  result !! "win"%string = Some (VBool true) ->
  result !! "attempts"%string = Some (VInt attempts_used) ->
  In (difficulty_key, base)
     [("easy"%string, 50); ("medium"%string, 120);
      ("hard"%string, 300); ("timed"%string, 200)] ->
  exists score,
    compute_score result difficulty_key = Ret score /\
    base <= score /\ 50 <= score /\
    score = base + Z.max 0 (50 - attempts_used * 5).
Proof.
  intros Hw Ha Hk. apply base_scores_table in Hk as [Hb Hbase].
  eexists. split; [eapply compute_score_won; eassumption|]. lia.
Qed.

Lemma won_score_at_least_base_witness :
  exists score,
    compute_score (round_result true 12 400) "timed" = Ret score /\
    200 <= score /\ 50 <= score /\
    score = 200 + Z.max 0 (50 - 12 * 5).
Proof.
  apply (won_score_at_least_base (round_result true 12 400) "timed" 12 200).
  - reflexivity.
  - reflexivity.
  - simpl. right. right. right. left. reflexivity.
Defined.

(* ================================================================== *)
(** * Hints *)
(* ================================================================== *)

Section ZipCount.
Context {A : Type} (eqb : A -> A -> bool) (d : A).



End ZipCount.









Lemma pymax_le_iff (x a b : Q) :
  Qle_bool x (pymax a b) = true <-> (x <= Qmax a b)%Q.
Proof.
  rewrite Qle_bool_iff, Q.max_le_iff. unfold pymax, Qgtb.
  destruct (Qle_bool b a) eqn:E; cbn [negb].
  - apply Qle_bool_iff in E. split; [auto|].
    intros [H|H]; [assumption | now apply Qle_trans with b].
  - assert (Hlt : (a < b)%Q).
    { apply Qnot_le_lt. intros H. apply Qle_bool_iff in H. congruence. }
    split; [auto|].
    intros [H|H]; [|assumption]. apply Qle_trans with a; [assumption|].
    now apply Qlt_le_weak.
Qed.

(** The first test of [give_hint], read as a proposition. *)
Lemma extremely_close_decided secret diff :
  Qle_bool (inject_Z diff) (extremely_close_bound secret) = true
  <-> extremely_close secret diff.
Proof.
  unfold extremely_close_bound, extremely_close.
  rewrite pymax_le_iff. destruct (Z.eqb_spec secret 0) as [->|Hs]; cbn [negb].
  - rewrite Q.max_le_iff. unfold Qle. cbn [Qnum Qden inject_Z]. split.
    + intros [H|H]; left; split; (reflexivity || lia).
    + intros [[_ H]|[H _]]; [right; lia | congruence].
  - split.
    + intros H. right. now split.
    + intros [[H _]|[_ H]]; [congruence | assumption].
Qed.

Lemma le_floor (d : Z) (q : Q) : (inject_Z d <= q)%Q <-> d <= Qfloor q.
Proof.
  split.
  - intros H. rewrite <- (Qfloor_Z d). now apply Qfloor_resp_le.
  - intros H. apply Qle_trans with (inject_Z (Qfloor q)); [|apply Qfloor_le].
    now rewrite <- Zle_Qle.
Qed.

(** Up to 10000, the rounding of the product never moves it across an
    integer: its integer part is that of [secret / 50]. *)
Lemma double_product_floor secret :
  0 <= secret <= 10000 -> Qfloor (double_product secret) = secret / 50.
Proof.
  intros Hs.
  set (upto := map Z.of_nat (seq 0 (Z.to_nat 10001))).
  assert (Hall : forallb (fun s => Qfloor (double_product s) =? s / 50) upto = true)
    by (vm_compute; reflexivity).
  rewrite forallb_forall in Hall. apply Z.eqb_eq, Hall.
  unfold upto. apply in_map_iff. exists (Z.to_nat secret).
  split; [lia | apply in_seq; lia].
Qed.

(** In integers, for the secrets of any range the program plays with:
    within 1, or within a fiftieth of the secret. *)
Lemma extremely_close_integers secret diff :
  0 <= secret <= 10000 ->
  extremely_close secret diff <->
  (secret = 0 /\ diff <= 2) \/ (secret <> 0 /\ (diff <= 1 \/ 50 * diff <= secret)).
Proof.
  intros Hs. unfold extremely_close. rewrite Q.max_le_iff.
  assert (H1 : (inject_Z diff <= 1)%Q <-> diff <= 1).
  { unfold Qle. cbn [Qnum Qden inject_Z]. lia. }
  assert (H2 : (inject_Z diff <= double_product secret)%Q <-> 50 * diff <= secret).
  { rewrite le_floor, (double_product_floor secret Hs). split; intros H.
    - pose proof (Z.mul_div_le secret 50 ltac:(lia)). lia.
    - apply Z.div_le_lower_bound; lia. }
  rewrite H1, H2. reflexivity.
Qed.

(** On secrets and differences up to 1000, which covers every range of the
    difficulty table, rounding does not change the first test. *)
Lemma float_test_agrees secret diff :
  0 <= secret <= 1000 -> 0 <= diff <= 1000 ->
  float_extremely_close secret diff
  = Qle_bool (inject_Z diff) (extremely_close_bound secret).
Proof.
  intros Hs Hd.
  set (upto := map Z.of_nat (seq 0 1001)).
  set (diffs := map (fun d => (float_of_int d, inject_Z d)) upto).
  assert (Hall : forallb (fun s =>
            let b := float_bound s in
            let q := extremely_close_bound s in
            forallb (fun d : spec_float * Q =>
                       Bool.eqb (SFleb (fst d) b) (Qle_bool (snd d) q)) diffs)
            upto = true) by (vm_compute; reflexivity).
  assert (Hin : forall n, 0 <= n <= 1000 -> In n upto).
  { intros n Hn. unfold upto. apply in_map_iff. exists (Z.to_nat n).
    split; [lia | apply in_seq; lia]. }
  rewrite forallb_forall in Hall. specialize (Hall secret (Hin secret Hs)).
  cbv zeta in Hall. rewrite forallb_forall in Hall.
  specialize (Hall (float_of_int diff, inject_Z diff)
                (in_map _ upto diff (Hin diff Hd))).
  now apply Bool.eqb_prop in Hall.
Qed.



Example give_hint_beyond_2_53 :
  give_hint 100000000000000049 98000000000000048 1 10
  = "You're extremely close! Try higher."%string.
Proof. vm_compute. reflexivity. Qed.


(* ================================================================== *)
(** * The round loop *)
(* ================================================================== *)

Lemma marks_app a b : marks (a ++ b) = marks a ++ marks b.
Proof. apply List.filter_app. Qed.

Lemma recorded_app a b : recorded (a ++ b) = recorded a ++ recorded b.
Proof. apply flat_map_app. Qed.

Lemma tips_app a b : tips (a ++ b) = tips a ++ tips b.
Proof. apply List.filter_app. Qed.

Lemma recorded_marks out : recorded (marks out) = recorded out.
Proof.
  induction out as [|ev out IH]; [reflexivity|].
  destruct ev; simpl; rewrite ?IH; reflexivity.
Qed.

Lemma tips_marks out : tips (marks out) = tips out.
Proof.
  induction out as [|ev out IH]; [reflexivity|].
  destruct ev; simpl; rewrite ?IH; try reflexivity; now f_equal.
Qed.

(** [get_int] prints only complaints; it returns a number in range, using
    up at least the line it returns, or raises [EOFError] or [ValueError]. *)
Lemma get_int_spec min_val max_val inp :
  marks (fst (get_int min_val max_val inp)) = [] /\
  snd (get_int min_val max_val inp) <> OutOfFuel /\
  (forall e, snd (get_int min_val max_val inp) = Raise e ->
             e = EOFError \/ e = ValueError) /\
  forall n rest,
    snd (get_int min_val max_val inp) = Ret (n, rest) ->
    (length rest < length inp)%nat /\
    (forall m, min_val = Some m -> m <= n) /\
    (forall M, max_val = Some M -> n <= M).
Proof.
  induction inp as [|l inp (IHm & IHf & IHe & IHr)].
  { repeat split; try discriminate. intros e [= <-]. now left. }
  set (good := fun (len : nat) (r : list event * outcome (Z * list line)) =>
    marks (fst r) = [] /\
    snd r <> OutOfFuel /\
    (forall e, snd r = Raise e -> e = EOFError \/ e = ValueError) /\
    forall n rest,
      snd r = Ret (n, rest) ->
      (length rest < len)%nat /\
      (forall m, min_val = Some m -> m <= n) /\
      (forall M, max_val = Some M -> n <= M)).
  change (good (length (l :: inp)) (get_int min_val max_val (l :: inp))).
  assert (Hskip : forall ev,
    is_mark ev = false ->
    good (length (l :: inp))
      (let '(out, r) := get_int min_val max_val inp in (ev :: out, r))).
  { intros ev Hev. unfold good. destruct (get_int min_val max_val inp) as [out r].
    cbn [fst snd] in *. split; [|split; [exact IHf | split; [exact IHe|]]].
    - unfold marks in *. cbn [List.filter]. now rewrite Hev.
    - intros n rest Hr. destruct (IHr n rest Hr) as (Hlen & Hlo & Hhi).
      cbn [length]. repeat split; auto. }
  assert (Hdone : forall n,
    (forall m, min_val = Some m -> m <= n) ->
    (forall M, max_val = Some M -> n <= M) ->
    good (length (l :: inp)) (@nil event, Ret (n, inp))).
  { intros n Hlo Hhi. unfold good. cbn [fst snd].
    split; [reflexivity|]. split; [discriminate|]. split; [discriminate|].
    intros n' rest [= <- <-]. cbn [length]. repeat split; auto. }
  destruct l as [|n|s|s]; cbn [get_int]; try (apply Hskip; reflexivity).
  - destruct min_val as [m|], max_val as [M|].
    + destruct (Z.ltb_spec n m); [apply Hskip; reflexivity|].
      destruct (Z.gtb_spec n M); [apply Hskip; reflexivity|].
      apply Hdone; intros ? [= <-]; lia.
    + destruct (Z.ltb_spec n m); [apply Hskip; reflexivity|].
      apply Hdone; [intros ? [= <-]; lia | discriminate].
    + destruct (Z.gtb_spec n M); [apply Hskip; reflexivity|].
      apply Hdone; [discriminate | intros ? [= <-]; lia].
    + apply Hdone; discriminate.
  - unfold good. cbn [fst snd]. repeat split; try discriminate.
    intros e [= <-]. now right.
Qed.

(** One turn of the loop: it ends the round as lost (time or attempts), it
    fails to read a guess, it records the secret and ends the round as
    won, or it records a wrong guess, prints the hint (and after the third
    guess the tip) and goes round again with less input. *)
Lemma round_loop_turn fuel cfg secret clock st :
  let r := round_loop (S fuel) cfg secret clock st in
  (exists o, marks o = [] /\
     r = (o, Ret (round_result false (length (guesses st)) secret))) \/
  (exists o e, marks o = [] /\ (e = EOFError \/ e = ValueError) /\
     r = (o, Raise e)) \/
  (exists o, marks o = [] /\
     r = (o ++ [InGuess secret; OutCorrect],
          Ret (round_result true (S (length (guesses st))) secret))) \/
  (exists o g o' st',
     marks o = [] /\ marks o' = [] /\ g <> secret /\
     guesses st' = guesses st ++ [g] /\
     (length (pending st') < length (pending st))%nat /\
     r = emit (o ++ [InGuess g] ++ o'
                 ++ (if (length (guesses st') =? 3)%nat
                     then [half_tip cfg secret] else []))
              (round_loop fuel cfg secret clock st')).
Proof.
  cbn [round_loop].
  destruct (truthy_opt (p_time_limit cfg) &&
            Qgtb (clock (ticks st)) (inject_Z (default 0 (p_time_limit cfg)))).
  { left. exists [OutTimeUp]. split; reflexivity. }
  set (out_timer := if truthy_opt (p_time_limit cfg) then _ else _).
  assert (Ht : marks out_timer = []).
  { unfold out_timer. destruct (truthy_opt (p_time_limit cfg)); reflexivity. }
  destruct (match attempts_left st with Some n => n <=? 0 | None => false end).
  { left. exists (out_timer ++ [OutNoAttempts]). split; [|reflexivity].
    now rewrite marks_app, Ht. }
  pose proof (get_int_spec (Some (p_min cfg)) (Some (p_max cfg)) (pending st))
    as (Hm & Hf & He & Hr).
  destruct (get_int (Some (p_min cfg)) (Some (p_max cfg)) (pending st))
    as [out_read [[guess rest]|e|]]; cbn [fst snd] in *.
  2: { right. left. exists (out_timer ++ out_read), e.
       split; [now rewrite marks_app, Ht, Hm|]. split; [now apply He | reflexivity]. }
  2: { now contradiction Hf. }
  destruct (Hr guess rest eq_refl) as (Hlen & _ & _).
  destruct (Z.eqb_spec guess secret) as [->|Hne].
  { right. right. left. exists (out_timer ++ out_read). split.
    - now rewrite marks_app, Ht, Hm.
    - rewrite <- app_assoc, length_app, Nat.add_1_r. reflexivity. }
  right. right. right.
  set (attempts_left' := (fun n => n - 1) <$> attempts_left st).
  set (out_left := match attempts_left' with Some n => [OutAttemptsLeft n] | None => [] end).
  set (mh := give_hint _ _ _ _).
  set (st' := LoopState _ _ _ _).
  exists (out_timer ++ out_read), guess, (OutHint mh :: out_left), st'.
  repeat split; try assumption.
  - now rewrite marks_app, Ht, Hm.
  - unfold out_left. destruct attempts_left'; reflexivity.
  - unfold emit. f_equal. unfold half_tip. cbn [guesses st'].
    rewrite <- !app_assoc. reflexivity.
Qed.

Lemma quiet_recorded o : marks o = [] -> recorded o = [].
Proof. intros H. now rewrite <- recorded_marks, H. Qed.

(** The marks and the recorded guesses of a turn that goes round again. *)
Lemma turn_marks cfg secret o g o' (b : bool) rest :
  marks o = [] -> marks o' = [] ->
  marks ((o ++ [InGuess g] ++ o' ++ (if b then [half_tip cfg secret] else [])) ++ rest)
  = InGuess g :: (if b then [half_tip cfg secret] else []) ++ marks rest.
Proof.
  intros Ho Ho'. rewrite !marks_app, Ho, Ho'. destruct b; reflexivity.
Qed.

Lemma turn_recorded cfg secret o g o' (b : bool) rest :
  marks o = [] -> marks o' = [] ->
  recorded ((o ++ [InGuess g] ++ o' ++ (if b then [half_tip cfg secret] else [])) ++ rest)
  = g :: recorded rest.
Proof.
  intros Ho Ho'. rewrite !recorded_app, (quiet_recorded o Ho), (quiet_recorded o' Ho').
  destruct b; reflexivity.
Qed.

(** With more fuel than there are unread lines the loop comes to an end. *)
Lemma round_loop_fuel fuel cfg secret clock st :
  (length (pending st) < fuel)%nat ->
  snd (round_loop fuel cfg secret clock st) <> OutOfFuel.
Proof.
  revert st. induction fuel as [|fuel IH]; intros st Hlen; [lia|].
  destruct (round_loop_turn fuel cfg secret clock st)
    as [(o & _ & ->)|[(o & e & _ & _ & ->)|[(o & _ & ->)|
        (o & g & o' & st' & _ & _ & _ & _ & Hlt & ->)]]]; try discriminate.
  cbn [emit snd]. apply IH. lia.
Qed.

(** The guesses and tips of a run are laid out as [expected_marks] says. *)
Lemma round_loop_marks fuel cfg secret clock st :
  let out := fst (round_loop fuel cfg secret clock st) in
  marks out = expected_marks cfg secret (length (guesses st)) (recorded out).
Proof.
  revert st. induction fuel as [|fuel IH]; intros st; [reflexivity|].
  destruct (round_loop_turn fuel cfg secret clock st)
    as [(o & Ho & ->)|[(o & e & Ho & _ & ->)|[(o & Ho & ->)|
        (o & g & o' & st' & Ho & Ho' & Hg & Hgs & _ & ->)]]]; cbn [fst emit].
  - now rewrite Ho, (quiet_recorded o Ho).
  - now rewrite Ho, (quiet_recorded o Ho).
  - rewrite marks_app, recorded_app, Ho, (quiet_recorded o Ho). cbn.
    now rewrite Z.eqb_refl.
  - rewrite turn_marks, turn_recorded by assumption.
    cbn [expected_marks]. rewrite (IH st'), Hgs, length_app, Nat.add_1_r.
    apply Z.eqb_neq in Hg. rewrite Hg. reflexivity.
Qed.

(** The dictionary returned carries the flag, the number of guesses recorded
    and the secret; a won round ends on the secret and a lost one never
    met it. *)
Lemma round_loop_result fuel cfg secret clock st result :
  snd (round_loop fuel cfg secret clock st) = Ret result ->
  let gs := recorded (fst (round_loop fuel cfg secret clock st)) in
  exists won,
    result = round_result won (length (guesses st) + length gs) secret /\
    ((won = true /\ last gs = Some secret) \/ (won = false /\ ~ In secret gs)).
Proof.
  revert st. induction fuel as [|fuel IH]; intros st; [discriminate|].
  destruct (round_loop_turn fuel cfg secret clock st)
    as [(o & Ho & ->)|[(o & e & Ho & _ & ->)|[(o & Ho & ->)|
        (o & g & o' & st' & Ho & Ho' & Hg & Hgs & _ & ->)]]];
    cbn [fst snd emit]; intros Hr.
  - injection Hr as <-. exists false. rewrite (quiet_recorded o Ho), Nat.add_0_r.
    split; [reflexivity|]. right. split; [reflexivity | intros []].
  - discriminate.
  - injection Hr as <-. exists true.
    rewrite recorded_app, (quiet_recorded o Ho). cbn. rewrite Nat.add_1_r.
    split; [reflexivity|]. left. split; reflexivity.
  - destruct (IH st' Hr) as (won & -> & Hw). exists won.
    rewrite turn_recorded by assumption.
    rewrite Hgs, length_app. cbn [length]. split; [f_equal; lia|].
    destruct Hw as [[-> Hl]|[-> Hn]]; [left | right]; split; try reflexivity.
    + destruct (recorded (fst (round_loop fuel cfg secret clock st')));
        [discriminate | exact Hl].
    + intros [->|H]; [now apply Hg | now apply Hn].
Qed.

(** ** The layout of guesses and tips *)

Lemma expected_marks_tips cfg secret n gs :
  tips (expected_marks cfg secret n gs)
  = if (n <? 3)%nat
    then match gs !! (2 - n)%nat with
         | Some g => if g =? secret then [] else [half_tip cfg secret]
         | None => []
         end
    else [].
Proof.
  revert n. induction gs as [|g gs IH]; intros n.
  - cbn [expected_marks tips List.filter]. rewrite lookup_nil.
    now destruct (n <? 3)%nat.
  - cbn [expected_marks]. change (InGuess g :: ?l) with ([InGuess g] ++ l).
    rewrite !tips_app, IH. cbn [tips List.filter is_tip app].
    destruct (Nat.ltb_spec n 3) as [Hn|Hn].
    + destruct (Nat.eqb_spec (S n) 3) as [E|E].
      * replace (2 - n)%nat with 0%nat by lia. cbn [lookup list_lookup].
        replace (S n <? 3)%nat with false by (symmetry; apply Nat.ltb_ge; lia).
        destruct (g =? secret); reflexivity.
      * rewrite andb_false_r. cbn [List.filter app].
        replace (S n <? 3)%nat with true by (symmetry; apply Nat.ltb_lt; lia).
        replace (2 - n)%nat with (S (2 - S n)) by lia. reflexivity.
    + replace (S n =? 3)%nat with false by (symmetry; apply Nat.eqb_neq; lia).
      rewrite andb_false_r.
      replace (S n <? 3)%nat with false by (symmetry; apply Nat.ltb_ge; lia).
      reflexivity.
Qed.

Lemma expected_marks_tip_place cfg secret n gs m1 ev m2 :
  expected_marks cfg secret n gs = m1 ++ ev :: m2 ->
  is_tip ev = true ->
  (n + length (recorded m1) = 3)%nat /\
  ev = half_tip cfg secret /\
  exists g, last (recorded m1) = Some g /\ g <> secret.
Proof.
  revert n m1. induction gs as [|g gs IH]; intros n m1 Heq Hev.
  - destruct m1; discriminate.
  - cbn [expected_marks] in Heq.
    destruct (negb (g =? secret) && (S n =? 3)%nat) eqn:E; cbn [app] in Heq;
      (destruct m1 as [|x m1]; [injection Heq as <- _; discriminate|]);
      injection Heq as <- Heq.
    + apply andb_true_iff in E as [Hg Hn].
      apply negb_true_iff, Z.eqb_neq in Hg. apply Nat.eqb_eq in Hn.
      destruct m1 as [|y m1].
      * injection Heq as <- _. cbn. repeat split; [lia|]. now exists g.
      * injection Heq as <- Heq.
        destruct (IH _ _ Heq Hev) as (Hlen & _ & g' & Hl & _).
        destruct (recorded m1); [discriminate | cbn [length] in Hlen; lia].
    + destruct (IH _ _ Heq Hev) as (Hlen & -> & g' & Hl & Hg').
      cbn [recorded flat_map app length]. fold (recorded m1).
      repeat split; [lia|]. exists g'. split; [|assumption].
      destruct (recorded m1); [discriminate | exact Hl].
Qed.

(* ================================================================== *)
(** * Rounds *)
(* ================================================================== *)

Lemma banner_quiet cfg player_name : marks (banner cfg player_name) = [].
Proof.
  unfold banner.
  destruct (truthy_opt (p_attempts cfg)), (truthy_opt (p_time_limit cfg)); reflexivity.
Qed.

Lemma play_round_known key cfg player_name secret clock inp :
  DIFFICULTIES !! key = Some cfg ->
  play_round key player_name secret clock inp
  = emit (banner cfg player_name)
      (round_loop (S (length inp)) cfg secret clock
         (LoopState [] (p_attempts cfg) 0 inp)).
Proof. intros H. unfold play_round, getitem. rewrite H. reflexivity. Qed.

Lemma play_round_unknown key player_name secret clock inp :
  DIFFICULTIES !! key = None ->
  play_round key player_name secret clock inp = ([], Raise (KeyError key)).
Proof. intros H. unfold play_round, getitem. rewrite H. reflexivity. Qed.

(** The time check at the top of a turn. *)
Lemma round_loop_time_up fuel cfg t secret clock st :
  p_time_limit cfg = Some t -> t <> 0 ->
  (inject_Z t < clock (ticks st))%Q ->
  round_loop (S fuel) cfg secret clock st
  = ([OutTimeUp], Ret (round_result false (length (guesses st)) secret)).
Proof.
  intros Hc Ht Hlt. cbn [round_loop]. rewrite Hc.
  change (default 0 (Some t)) with t. cbn [truthy_opt].
  apply Z.eqb_neq in Ht. rewrite Ht. cbn [negb andb]. unfold Qgtb.
  destruct (Qle_bool (clock (ticks st)) (inject_Z t)) eqn:E; [|reflexivity].
  apply Qle_bool_iff in E. exfalso. exact (Qlt_not_le _ _ Hlt E).
Qed.

Lemma round_loop_in_time fuel cfg t secret clock st :
  p_time_limit cfg = Some t -> t <> 0 ->
  (clock (ticks st) <= inject_Z t)%Q ->
  hd_error (fst (round_loop (S fuel) cfg secret clock st))
  = Some (OutTimer (py_int (pymax 0 (inject_Z t - clock (ticks st))))).
Proof.
  intros Hc Ht Hle. cbn [round_loop]. rewrite Hc.
  change (default 0 (Some t)) with t. cbn [truthy_opt].
  apply Z.eqb_neq in Ht. rewrite Ht. cbn [negb andb]. unfold Qgtb.
  apply Qle_bool_iff in Hle. rewrite Hle. cbn [negb].
  destruct (match attempts_left st with Some n => n <=? 0 | None => false end);
    [reflexivity|].
  destruct (get_int (Some (p_min cfg)) (Some (p_max cfg)) (pending st))
    as [out_read [[guess rest]|e|]]; [|reflexivity|reflexivity].
  destruct (guess =? secret); reflexivity.
Qed.

Lemma timed_profile : DIFFICULTIES !! "timed"%string = Some (Profile 1 500 None (Some 20)).
Proof. reflexivity. Qed.

(** A round comes to an end: it is never cut short by the bound on the
    unfolding of the loop. *)
Lemma play_round_ends key player secret clock inp :
  snd (play_round key player secret clock inp) <> OutOfFuel.
Proof.
  destruct (DIFFICULTIES !! key) as [cfg|] eqn:Hk.
  - rewrite (play_round_known _ _ _ _ _ _ Hk). cbn [emit snd].
    apply round_loop_fuel. cbn [pending]. lia.
  - rewrite (play_round_unknown _ _ _ _ _ Hk). discriminate.
Qed.

(** The only exceptions of the loop are those of reading a guess. *)
Lemma round_loop_raises fuel cfg secret clock st e :
  snd (round_loop fuel cfg secret clock st) = Raise e ->
  e = EOFError \/ e = ValueError.
Proof.
  revert st. induction fuel as [|fuel IH]; intros st; [discriminate|].
  destruct (round_loop_turn fuel cfg secret clock st)
    as [(o & _ & ->)|[(o & e' & _ & He & ->)|[(o & _ & ->)|
        (o & g & o' & st' & _ & _ & _ & _ & _ & ->)]]];
    cbn [snd emit]; try discriminate.
  - congruence.
  - apply IH.
Qed.

(** C6.  Whatever ends a round, the dictionary returned holds exactly three
    fields: the [win] flag, the secret that was drawn, and the number of
    guesses recorded.  A won round ends on the secret; a lost one never met
    it.  There is no [guesses] field: the history is not returned. *)
Theorem play_round_result (key player : string) (secret : Z) (clock : nat -> Q)
    (inp : list line) :
  let out := fst (play_round key player secret clock inp) in
  match snd (play_round key player secret clock inp) with
  | Ret result =>
      exists won : bool,
        result = round_result won (length (recorded out)) secret /\
        result !! "win"%string = Some (VBool won) /\
        result !! "attempts"%string = Some (VInt (Z.of_nat (length (recorded out)))) /\
        result !! "secret"%string = Some (VInt secret) /\
        result !! "guesses"%string = None /\
        dom result = {[ "win"%string; "attempts"%string; "secret"%string ]} /\
        ((won = true /\ last (recorded out) = Some secret) \/
         (won = false /\ ~ In secret (recorded out)))
  | Raise _ => True
  | OutOfFuel => False
  end.
Proof.
  intros out. subst out.
  pose proof (play_round_ends key player secret clock inp) as Hends.
  destruct (DIFFICULTIES !! key) as [cfg|] eqn:Hk.
  2: { rewrite (play_round_unknown _ _ _ _ _ Hk). exact I. }
  rewrite (play_round_known _ _ _ _ _ _ Hk) in *. cbn [emit fst snd] in *.
  set (st := LoopState [] (p_attempts cfg) 0 inp) in *.
  pose proof (round_loop_result (S (length inp)) cfg secret clock st) as Hres.
  destruct (snd (round_loop (S (length inp)) cfg secret clock st)) as [result|e|] eqn:Hr.
  - destruct (Hres result eq_refl) as (won & -> & Hw). exists won.
    rewrite recorded_app, (quiet_recorded _ (banner_quiet cfg player)).
    cbn [app guesses st length Nat.add] in *.
    repeat split; try reflexivity; try exact Hw.
  - exact I.
  - now apply Hends.
Qed.

(** A won round of three guesses: the dictionary returned has no [guesses]
    field, although three guesses were recorded. *)
Lemma play_round_no_guesses_field :
  exists out result,
    play_round "easy" "Ann" 27 (fun _ => 0%Q) [Number 10; Number 40; Number 27]
    = (out, Ret result) /\
    recorded out = [10; 40; 27] /\
    result !! "attempts"%string = Some (VInt 3) /\
    ~ is_Some (result !! "guesses"%string).
Proof.
  exists [OutIntro 1 50 "Ann"; OutYouHaveAttempts 10;
          InGuess 10; OutHint "Not that close. Try higher."; OutAttemptsLeft 9;
          InGuess 40; OutHint "Not that close. Try lower."; OutAttemptsLeft 8;
          InGuess 27; OutCorrect], (round_result true 3 27).
  split; [vm_compute; reflexivity|].
  split; [reflexivity|]. split; [vm_compute; reflexivity|].
  intros [v Hv]. vm_compute in Hv. discriminate.
Qed.

(** C7.  In every round the half-of-range tip is printed at most once: it is
    printed when a third guess was recorded and was wrong, and not otherwise;
    wherever it stands in the trace, exactly three guesses were recorded
    before it and the last of them was wrong. *)
Theorem half_tip_once (key player : string) (secret : Z) (clock : nat -> Q)
    (inp : list line) :
  let out := fst (play_round key player secret clock inp) in
  (length (tips out) <= 1)%nat /\
  tips out =
    match DIFFICULTIES !! key, recorded out !! 2%nat with
    | Some cfg, Some g => if g =? secret then [] else [half_tip cfg secret]
    | _, _ => []
    end /\
  forall pre ev post,
    out = pre ++ ev :: post -> is_tip ev = true ->
    length (recorded pre) = 3%nat /\
    (exists g, last (recorded pre) = Some g /\ g <> secret) /\
    (forall cfg, DIFFICULTIES !! key = Some cfg -> ev = half_tip cfg secret).
Proof.
  intros out. subst out.
  destruct (DIFFICULTIES !! key) as [cfg|] eqn:Hk.
  2: { rewrite (play_round_unknown _ _ _ _ _ Hk). cbn [fst].
       repeat split; try (cbn; lia); destruct pre; discriminate. }
  rewrite (play_round_known _ _ _ _ _ _ Hk). cbn [emit fst].
  set (st := LoopState [] (p_attempts cfg) 0 inp).
  set (run := fst (round_loop (S (length inp)) cfg secret clock st)).
  assert (Hmarks : marks (banner cfg player ++ run)
                   = expected_marks cfg secret 0 (recorded (banner cfg player ++ run))).
  { rewrite marks_app, recorded_app, banner_quiet,
      (quiet_recorded _ (banner_quiet cfg player)).
    apply (round_loop_marks (S (length inp)) cfg secret clock st). }
  assert (Htips : tips (banner cfg player ++ run)
                  = match recorded (banner cfg player ++ run) !! 2%nat with
                    | Some g => if g =? secret then [] else [half_tip cfg secret]
                    | None => []
                    end).
  { rewrite <- tips_marks, Hmarks, expected_marks_tips. reflexivity. }
  split; [|split].
  - rewrite Htips. destruct (_ !! 2%nat) as [g|]; [destruct (g =? secret)|]; cbn; lia.
  - exact Htips.
  - intros pre ev post Heq Hev.
    assert (Hmark : is_mark ev = true) by (destruct ev; try discriminate; reflexivity).
    assert (Hsplit : expected_marks cfg secret 0 (recorded (banner cfg player ++ run))
                     = marks pre ++ ev :: marks post).
    { rewrite <- Hmarks, Heq, marks_app. unfold marks at 2.
      cbn [List.filter]. now rewrite Hmark. }
    destruct (expected_marks_tip_place _ _ _ _ _ _ _ Hsplit Hev) as (Hlen & -> & Hlast).
    rewrite recorded_marks in Hlen, Hlast. cbn [Nat.add] in Hlen.
    split; [exact Hlen|]. split; [exact Hlast|]. now intros cfg' [= <-].
Qed.
(* ================================================================== *)
(** * Sanity checks on concrete runs *)
(* ================================================================== *)

Example hint_104_204 :
  give_hint 104 204 1 10 = "Not that close. Try lower. (Digits from right matched: 2)"%string.
Proof. vm_compute. reflexivity. Qed.

Example easy_round_27 :
  play_round "easy" "Ann" 27 (fun _ => 0%Q) [Number 10; Number 40; Number 27]
  = ([OutIntro 1 50 "Ann"; OutYouHaveAttempts 10;
      InGuess 10; OutHint "Not that close. Try higher."; OutAttemptsLeft 9;
      InGuess 40; OutHint "Not that close. Try lower."; OutAttemptsLeft 8;
      InGuess 27; OutCorrect],
     Ret (round_result true 3 27)).
Proof. vm_compute. reflexivity. Qed.

Example easy_score_27 : compute_score (round_result true 3 27) "easy" = Ret 85.
Proof. vm_compute. reflexivity. Qed.

(** A line that passes the digit test and that [int] refuses ends the call,
    and the round, on [ValueError], with no complaint printed. *)
Example get_int_refused :
  get_int (Some 1) (Some 50) [Refused "²"; Number 5] = ([], Raise ValueError).
Proof. reflexivity. Qed.

Example easy_round_refused :
  play_round "easy" "Ann" 27 (fun _ => 0%Q) [Number 10; Refused "²"; Number 27]
  = ([OutIntro 1 50 "Ann"; OutYouHaveAttempts 10;
      InGuess 10; OutHint "Not that close. Try higher."; OutAttemptsLeft 9],
     Raise ValueError).
Proof. vm_compute. reflexivity. Qed.

(* ================================================================== *)
(** * Reading a guess *)
(* ================================================================== *)

Lemma accepts_number min_val max_val n :
  accepts min_val max_val (Number n) = in_range min_val max_val n.
Proof. reflexivity. Qed.

Lemma passed_over_not_accepted min_val max_val l :
  passed_over min_val max_val l = true -> accepts min_val max_val l = false.
Proof.
  destruct l as [|n|s|s]; cbn [passed_over accepts]; try reflexivity.
  intros H. now apply negb_true_iff in H.
Qed.

(** [get_int] passes over a stretch of lines, complaining about each, and
    stops at the first line that is a number in range, or that [int]
    refuses, or at the end of the input. *)
Lemma get_int_scan (min_val max_val : option Z) (inp : list line) :
  exists skipped,
    Forall (fun l => passed_over min_val max_val l = true) skipped /\
    fst (get_int min_val max_val inp) = flat_map (complaint min_val max_val) skipped /\
    match snd (get_int min_val max_val inp) with
    | Ret (n, rest) =>
        inp = skipped ++ Number n :: rest /\ in_range min_val max_val n = true
    | Raise e =>
        (e = ValueError /\ exists s rest, inp = skipped ++ Refused s :: rest) \/
        (e = EOFError /\ inp = skipped)
    | OutOfFuel => False
    end.
Proof.
  induction inp as [|l inp IH].
  { exists []. cbn. split; [constructor|]. split; [reflexivity|]. now right. }
  destruct IH as (sk & Hsk & Hout & Hres).
  assert (Hskip : forall ev,
    passed_over min_val max_val l = true ->
    complaint min_val max_val l = [ev] ->
    exists skipped,
      Forall (fun l => passed_over min_val max_val l = true) skipped /\
      fst (let '(out, r) := get_int min_val max_val inp in (ev :: out, r))
      = flat_map (complaint min_val max_val) skipped /\
      match snd (let '(out, r) := get_int min_val max_val inp in (ev :: out, r)) with
      | Ret (n, rest) =>
          l :: inp = skipped ++ Number n :: rest /\ in_range min_val max_val n = true
      | Raise e =>
          (e = ValueError /\ exists s rest, l :: inp = skipped ++ Refused s :: rest) \/
          (e = EOFError /\ l :: inp = skipped)
      | OutOfFuel => False
      end).
  { intros ev Hl Hev. exists (l :: sk).
    destruct (get_int min_val max_val inp) as [out r]. cbn [fst snd] in *.
    split; [now constructor|].
    split; [cbn [flat_map]; rewrite Hev, Hout; reflexivity|].
    destruct r as [[n rest]|e|]; [| |exact Hres].
    - destruct Hres as [-> Hn]. now split.
    - destruct Hres as [[-> (s & rest & ->)]|[-> ->]].
      + left. split; [reflexivity|]. now exists s, rest.
      + now right. }
  assert (Htake : forall n, in_range min_val max_val n = true ->
    exists skipped,
      Forall (fun l => passed_over min_val max_val l = true) skipped /\
      @nil event = flat_map (complaint min_val max_val) skipped /\
      Number n :: inp = skipped ++ Number n :: inp /\
      in_range min_val max_val n = true).
  { intros n Hn. exists []. repeat split; auto. }
  destruct l as [|n|s|s]; cbn [get_int].
  - now apply (Hskip OutEnterNumber).
  - destruct min_val as [m|], max_val as [M|]; cbn [fst snd].
    + destruct (Z.ltb_spec n m) as [Hm|Hm].
      { apply (Hskip (OutAtLeast m)); cbn [passed_over in_range complaint].
        - apply negb_true_iff, andb_false_iff. left. apply Z.leb_gt. lia.
        - now rewrite (proj2 (Z.ltb_lt n m) Hm). }
      destruct (Z.gtb_spec n M) as [HM|HM].
      { apply (Hskip (OutAtMost M)); cbn [passed_over in_range complaint].
        - apply negb_true_iff, andb_false_iff. right. apply Z.leb_gt. lia.
        - rewrite (proj2 (Z.ltb_ge n m) Hm).
          now rewrite (proj2 (Z.gtb_gt n M)) by lia. }
      apply Htake. cbn [in_range]. apply andb_true_iff. split; apply Z.leb_le; lia.
    + destruct (Z.ltb_spec n m) as [Hm|Hm].
      { apply (Hskip (OutAtLeast m)); cbn [passed_over in_range complaint].
        - apply negb_true_iff, andb_false_iff. left. apply Z.leb_gt. lia.
        - now rewrite (proj2 (Z.ltb_lt n m) Hm). }
      apply Htake. cbn [in_range]. apply andb_true_iff.
      split; [apply Z.leb_le; lia | reflexivity].
    + destruct (Z.gtb_spec n M) as [HM|HM].
      { apply (Hskip (OutAtMost M)); cbn [passed_over in_range complaint andb].
        - apply negb_true_iff, Z.leb_gt. lia.
        - now rewrite (proj2 (Z.gtb_gt n M)) by lia. }
      apply Htake. cbn [in_range andb]. apply Z.leb_le. lia.
    + apply Htake. reflexivity.
  - now apply (Hskip OutNotInteger).
  - exists []. split; [constructor|]. split; [reflexivity|].
    left. split; [reflexivity|]. now exists s, inp.
Qed.

(* ================================================================== *)
(** * Turn by turn *)
(* ================================================================== *)

Lemma round_loop_view fuel cfg secret clock st :
  turn_view fuel cfg secret clock st (round_loop (S fuel) cfg secret clock st).
Proof.
  cbn [round_loop].
  change (truthy_opt (p_time_limit cfg)
          && Qgtb (clock (ticks st)) (inject_Z (default 0 (p_time_limit cfg))))
    with (time_is_up cfg clock st).
  destruct (time_is_up cfg clock st) eqn:Hup; [now apply TurnTimeUp|].
  change (match attempts_left st with Some n => n <=? 0 | None => false end)
    with (out_of_attempts st).
  destruct (out_of_attempts st) eqn:Hatt; [now apply TurnNoAttempts|].
  destruct (get_int_scan (Some (p_min cfg)) (Some (p_max cfg)) (pending st))
    as (skipped & _ & _ & Hends).
  destruct (get_int (Some (p_min cfg)) (Some (p_max cfg)) (pending st))
    as [out_read [[g rest]|e|]] eqn:Hget;
    [|now apply TurnInputFails|destruct Hends].
  destruct (Z.eqb_spec g secret) as [->|Hne].
  - now apply TurnWon with rest.
  - now apply (TurnWrong fuel cfg secret clock st out_read g rest).
Qed.

Lemma hints_app a b : hints (a ++ b) = hints a ++ hints b.
Proof. apply flat_map_app. Qed.

Lemma attempts_shown_app a b :
  attempts_shown (a ++ b) = attempts_shown a ++ attempts_shown b.
Proof. apply flat_map_app. Qed.

Lemma timers_shown_app a b : timers_shown (a ++ b) = timers_shown a ++ timers_shown b.
Proof. apply flat_map_app. Qed.

(** What [get_int] prints is made of complaints only. *)
Lemma complaint_quiet min_val max_val l :
  let out := complaint min_val max_val l in
  recorded out = [] /\ hints out = [] /\ attempts_shown out = [] /\
  timers_shown out = [].
Proof.
  destruct l as [|k|s|s]; cbn [complaint]; try (repeat split; reflexivity).
  destruct min_val as [m|], max_val as [M|];
    try destruct (k <? m); try destruct (k >? M); repeat split; reflexivity.
Qed.

Lemma get_int_complains min_val max_val inp :
  let out := fst (get_int min_val max_val inp) in
  recorded out = [] /\ hints out = [] /\ attempts_shown out = [] /\
  timers_shown out = [].
Proof.
  destruct (get_int_scan min_val max_val inp) as (skipped & _ & -> & _).
  induction skipped as [|l skipped IH]; [repeat split|].
  destruct IH as (H1 & H2 & H3 & H4).
  destruct (complaint_quiet min_val max_val l) as (C1 & C2 & C3 & C4).
  cbn [flat_map].
  rewrite recorded_app, hints_app, attempts_shown_app, timers_shown_app.
  rewrite H1, H2, H3, H4, C1, C2, C3, C4. repeat split.
Qed.

Lemma timer_line_quiet cfg clock st :
  recorded (timer_line cfg clock st) = [] /\
  hints (timer_line cfg clock st) = [] /\
  attempts_shown (timer_line cfg clock st) = [].
Proof. unfold timer_line. destruct (truthy_opt (p_time_limit cfg)); repeat split. Qed.

Lemma feedback_recorded cfg secret st g : recorded (feedback cfg secret st g) = [g].
Proof.
  unfold feedback. destruct (attempts_left st); cbn;
    destruct (length (guesses st ++ [g]) =? 3)%nat; reflexivity.
Qed.

Lemma feedback_hints cfg secret st g :
  hints (feedback cfg secret st g) = [give_hint secret g 0 0].
Proof.
  unfold feedback. destruct (attempts_left st); cbn;
    destruct (length (guesses st ++ [g]) =? 3)%nat; reflexivity.
Qed.

Lemma feedback_attempts_shown cfg secret st g :
  attempts_shown (feedback cfg secret st g)
  = match attempts_left st with Some a => [a - 1] | None => [] end.
Proof.
  unfold feedback. destruct (attempts_left st); cbn;
    destruct (length (guesses st ++ [g]) =? 3)%nat; reflexivity.
Qed.

Lemma feedback_timers cfg secret st g : timers_shown (feedback cfg secret st g) = [].
Proof.
  unfold feedback. destruct (attempts_left st); cbn;
    destruct (length (guesses st ++ [g]) =? 3)%nat; reflexivity.
Qed.

Lemma banner_silent cfg player :
  recorded (banner cfg player) = [] /\ hints (banner cfg player) = [] /\
  attempts_shown (banner cfg player) = [] /\ timers_shown (banner cfg player) = [].
Proof.
  unfold banner.
  destruct (truthy_opt (p_attempts cfg)), (truthy_opt (p_time_limit cfg));
    repeat split.
Qed.

(** What a successful [get_int] tells about the input. *)
Lemma get_int_some min_val max_val inp out g rest :
  get_int min_val max_val inp = (out, Ret (g, rest)) ->
  in_range min_val max_val g = true /\
  count_accepted min_val max_val inp = S (count_accepted min_val max_val rest) /\
  (length rest < length inp)%nat /\
  recorded out = [] /\ hints out = [] /\ attempts_shown out = [] /\
  timers_shown out = [].
Proof.
  intros Hg. pose proof (get_int_scan min_val max_val inp) as Hs.
  pose proof (get_int_complains min_val max_val inp) as Hc.
  rewrite Hg in Hs, Hc. cbn [fst snd] in Hs, Hc.
  destruct Hs as (skipped & Hsk & _ & -> & Hr).
  split; [exact Hr|]. split; [|split; [|exact Hc]].
  - unfold count_accepted. rewrite List.filter_app, filter_none.
    + cbn [app List.filter]. rewrite accepts_number, Hr. reflexivity.
    + revert Hsk. apply List.Forall_impl. apply passed_over_not_accepted.
  - rewrite length_app. cbn [length]. lia.
Qed.

Lemma get_int_rest min_val max_val inp out g rest :
  get_int min_val max_val inp = (out, Ret (g, rest)) ->
  exists skipped, inp = skipped ++ Number g :: rest.
Proof.
  intros Hg. pose proof (get_int_scan min_val max_val inp) as Hs.
  rewrite Hg in Hs. cbn [fst snd] in Hs.
  destruct Hs as (skipped & _ & _ & -> & _). now exists skipped.
Qed.

(** What a failing [get_int] tells: when [int] refuses no line, the input
    ran out and held no number in range. *)
Lemma get_int_raise min_val max_val inp out e :
  get_int min_val max_val inp = (out, Raise e) ->
  (Forall (fun l => readable l = true) inp ->
   e = EOFError /\ count_accepted min_val max_val inp = 0%nat) /\
  recorded out = [] /\ hints out = [] /\ attempts_shown out = [] /\
  timers_shown out = [].
Proof.
  intros Hg. pose proof (get_int_scan min_val max_val inp) as Hs.
  pose proof (get_int_complains min_val max_val inp) as Hc.
  rewrite Hg in Hs, Hc. cbn [fst snd] in Hs, Hc.
  destruct Hs as (skipped & Hsk & _ & Hs).
  split; [|exact Hc]. intros Hread.
  destruct Hs as [[-> (s & rest & ->)]|[-> ->]].
  - apply List.Forall_app in Hread as [_ Hread].
    apply List.Forall_inv in Hread. discriminate.
  - split; [reflexivity|]. unfold count_accepted. rewrite filter_none; [reflexivity|].
    revert Hsk. apply List.Forall_impl. apply passed_over_not_accepted.
Qed.

Lemma in_range_bounds lo hi g :
  in_range (Some lo) (Some hi) g = true -> lo <= g <= hi.
Proof. unfold in_range. intros H. apply andb_true_iff in H as [H1 H2]. lia. Qed.

Lemma out_of_attempts_false st a :
  attempts_left st = Some a -> out_of_attempts st = false -> 0 < a.
Proof. unfold out_of_attempts. intros ->. intros H. apply Z.leb_gt in H. lia. Qed.

(** Every guess recorded is within the range of the profile. *)
Lemma round_loop_guesses_in_range fuel cfg secret clock st :
  Forall (fun g => p_min cfg <= g <= p_max cfg)
    (recorded (fst (round_loop fuel cfg secret clock st))).
Proof.
  revert st. induction fuel as [|fuel IH]; intros st; [constructor|].
  destruct (round_loop_view fuel cfg secret clock st)
    as [Hup|Hup Hatt|out_read e Hup Hatt Hget|out_read rest Hup Hatt Hget
        |out_read g rest Hup Hatt Hget Hne];
    cbn [fst emit]; rewrite ?recorded_app;
    destruct (timer_line_quiet cfg clock st) as (Htimer & _ & _);
    rewrite ?Htimer.
  - constructor.
  - constructor.
  - apply get_int_raise in Hget as (_ & -> & _). constructor.
  - apply get_int_some in Hget as (Hr & _ & _ & -> & _).
    apply in_range_bounds in Hr. repeat constructor; lia.
  - apply get_int_some in Hget as (Hr & _ & _ & -> & _).
    apply in_range_bounds in Hr. rewrite feedback_recorded.
    constructor; [lia | apply IH].
Qed.

(** With [a] attempts left, at most [a] more guesses are recorded. *)
Lemma round_loop_attempts_bound fuel cfg secret clock st a :
  attempts_left st = Some a ->
  (length (recorded (fst (round_loop fuel cfg secret clock st))) <= Z.to_nat a)%nat.
Proof.
  revert st a. induction fuel as [|fuel IH]; intros st a Ha; [cbn; lia|].
  destruct (round_loop_view fuel cfg secret clock st)
    as [Hup|Hup Hatt|out_read e Hup Hatt Hget|out_read rest Hup Hatt Hget
        |out_read g rest Hup Hatt Hget Hne];
    cbn [fst emit]; rewrite ?recorded_app;
    destruct (timer_line_quiet cfg clock st) as (Htimer & _ & _);
    rewrite ?Htimer.
  - cbn; lia.
  - cbn; lia.
  - apply get_int_raise in Hget as (_ & -> & _). cbn; lia.
  - apply get_int_some in Hget as (_ & _ & _ & -> & _).
    pose proof (out_of_attempts_false st a Ha Hatt). cbn. lia.
  - apply get_int_some in Hget as (_ & _ & _ & -> & _).
    pose proof (out_of_attempts_false st a Ha Hatt) as Hpos.
    rewrite feedback_recorded. cbn [app length].
    specialize (IH (next_state cfg st g rest) (a - 1)).
    cbn [next_state attempts_left] in IH. rewrite Ha in IH.
    specialize (IH eq_refl). lia.
Qed.

Lemma round_result_win w k s : round_result w k s !! "win"%string = Some (VBool w).
Proof. reflexivity. Qed.

Lemma round_result_secret w k s :
  round_result w k s !! "secret"%string = Some (VInt s).
Proof. reflexivity. Qed.

Lemma round_result_attempts w k s :
  round_result w k s !! "attempts"%string = Some (VInt (Z.of_nat k)).
Proof. reflexivity. Qed.

Lemma untimed_never_up cfg clock st :
  truthy_opt (p_time_limit cfg) = false -> time_is_up cfg clock st = false.
Proof. unfold time_is_up. now intros ->. Qed.

(** Without a time limit, a round is lost only when the attempts are used
    up: exactly as many guesses were recorded as there were attempts, and
    the last line printed says so. *)
Lemma round_loop_lost_untimed fuel cfg secret clock st a result :
  truthy_opt (p_time_limit cfg) = false ->
  attempts_left st = Some a -> 0 <= a ->
  snd (round_loop fuel cfg secret clock st) = Ret result ->
  result !! "win"%string = Some (VBool false) ->
  length (recorded (fst (round_loop fuel cfg secret clock st))) = Z.to_nat a /\
  last (fst (round_loop fuel cfg secret clock st)) = Some OutNoAttempts.
Proof.
  intros Hcfg. revert st a.
  induction fuel as [|fuel IH]; intros st a Ha Hpos; [discriminate|].
  pose proof (untimed_never_up cfg clock st Hcfg) as Hnever.
  destruct (round_loop_view fuel cfg secret clock st)
    as [Hup|Hup Hatt|out_read e Hup Hatt Hget|out_read rest Hup Hatt Hget
        |out_read g rest Hup Hatt Hget Hne];
    cbn [fst snd emit]; rewrite ?recorded_app;
    destruct (timer_line_quiet cfg clock st) as (Htimer & _ & _);
    rewrite ?Htimer; intros Hres Hwin.
  - congruence.
  - unfold out_of_attempts in Hatt. rewrite Ha in Hatt. apply Z.leb_le in Hatt.
    split; [cbn; lia | apply last_snoc].
  - discriminate.
  - injection Hres as <-. rewrite round_result_win in Hwin. discriminate.
  - apply get_int_some in Hget as (_ & _ & _ & -> & _).
    pose proof (out_of_attempts_false st a Ha Hatt) as Hgt.
    rewrite feedback_recorded. cbn [app length].
    specialize (IH (next_state cfg st g rest) (a - 1)).
    cbn [next_state attempts_left] in IH. rewrite Ha in IH.
    destruct (IH eq_refl ltac:(lia) Hres Hwin) as [Hlen Hlast].
    split; [rewrite Hlen; lia|].
    rewrite last_app, Hlast. reflexivity.
Qed.

(** With enough in-range numbers in the input to use up the attempts, the
    round returns a result. *)
Lemma round_loop_returns fuel cfg secret clock st a :
  attempts_left st = Some a ->
  Forall (fun l => readable l = true) (pending st) ->
  (Z.to_nat a <= count_accepted (Some (p_min cfg)) (Some (p_max cfg)) (pending st))%nat ->
  (length (pending st) < fuel)%nat ->
  exists result, snd (round_loop fuel cfg secret clock st) = Ret result.
Proof.
  revert st a.
  induction fuel as [|fuel IH]; intros st a Ha Hread Hcount Hfuel; [lia|].
  destruct (round_loop_view fuel cfg secret clock st)
    as [Hup|Hup Hatt|out_read e Hup Hatt Hget|out_read rest Hup Hatt Hget
        |out_read g rest Hup Hatt Hget Hne];
    cbn [snd emit]; try (eexists; reflexivity).
  - apply get_int_raise in Hget as (Hzero & _). destruct (Hzero Hread) as [_ Hz].
    pose proof (out_of_attempts_false st a Ha Hatt). lia.
  - destruct (get_int_rest _ _ _ _ _ _ Hget) as (skipped & Hsk).
    apply get_int_some in Hget as (_ & Hc & Hlen & _).
    pose proof (out_of_attempts_false st a Ha Hatt).
    apply (IH (next_state cfg st g rest) (a - 1)); cbn [next_state attempts_left pending].
    + now rewrite Ha.
    + rewrite Hsk in Hread. apply List.Forall_app in Hread as [_ Hread].
      now apply List.Forall_inv_tail in Hread.
    + lia.
    + lia.
Qed.

(** Without a time limit the clock plays no part. *)
Lemma round_loop_untimed fuel cfg secret clock clock' st :
  truthy_opt (p_time_limit cfg) = false ->
  round_loop fuel cfg secret clock st = round_loop fuel cfg secret clock' st.
Proof.
  intros Hcfg. revert st. induction fuel as [|fuel IH]; intros st; [reflexivity|].
  cbn [round_loop]. rewrite Hcfg. cbn [andb].
  destruct (match attempts_left st with Some n => n <=? 0 | None => false end);
    [reflexivity|].
  destruct (get_int (Some (p_min cfg)) (Some (p_max cfg)) (pending st))
    as [out_read [[g rest]|e|]]; [|reflexivity|reflexivity].
  destruct (g =? secret); [reflexivity|]. now rewrite IH.
Qed.

Lemma countdown_S a w : countdown a (S w) = (a - 1) :: countdown (a - 1) w.
Proof.
  unfold countdown. cbn [seq map]. f_equal; [lia|].
  rewrite <- seq_shift, map_map. apply map_ext. intros i. lia.
Qed.

(** The "attempts left" shown count down by one from the attempts there
    were, one per hint, and never go below zero. *)
Lemma round_loop_countdown fuel cfg secret clock st a :
  attempts_left st = Some a ->
  let out := fst (round_loop fuel cfg secret clock st) in
  attempts_shown out = countdown a (length (hints out)) /\
  Forall (fun k => 0 <= k) (attempts_shown out).
Proof.
  revert st a. induction fuel as [|fuel IH]; intros st a Ha;
    [split; [reflexivity | constructor]|].
  destruct (round_loop_view fuel cfg secret clock st)
    as [Hup|Hup Hatt|out_read e Hup Hatt Hget|out_read rest Hup Hatt Hget
        |out_read g rest Hup Hatt Hget Hne];
    cbn [fst emit]; cbv zeta; rewrite ?attempts_shown_app, ?hints_app;
    destruct (timer_line_quiet cfg clock st) as (_ & Htimer & Htimer');
    rewrite ?Htimer, ?Htimer'.
  - split; [reflexivity | constructor].
  - split; [reflexivity | constructor].
  - apply get_int_raise in Hget as (_ & _ & -> & -> & _).
    split; [reflexivity | constructor].
  - apply get_int_some in Hget as (_ & _ & _ & _ & -> & -> & _).
    split; [reflexivity | constructor].
  - apply get_int_some in Hget as (_ & _ & _ & _ & -> & -> & _).
    pose proof (out_of_attempts_false st a Ha Hatt) as Hgt.
    rewrite feedback_hints, feedback_attempts_shown, Ha. cbn [app length].
    specialize (IH (next_state cfg st g rest) (a - 1)).
    cbn [next_state attempts_left] in IH. rewrite Ha in IH.
    destruct (IH eq_refl) as [Heq Hall]. rewrite Heq at 1. rewrite countdown_S.
    split; [reflexivity|]. constructor; [lia | exact Hall].
Qed.

Lemma round_loop_no_countdown fuel cfg secret clock st :
  attempts_left st = None ->
  attempts_shown (fst (round_loop fuel cfg secret clock st)) = [].
Proof.
  revert st. induction fuel as [|fuel IH]; intros st Ha; [reflexivity|].
  destruct (round_loop_view fuel cfg secret clock st)
    as [Hup|Hup Hatt|out_read e Hup Hatt Hget|out_read rest Hup Hatt Hget
        |out_read g rest Hup Hatt Hget Hne];
    cbn [fst emit]; rewrite ?attempts_shown_app;
    destruct (timer_line_quiet cfg clock st) as (_ & _ & Htimer);
    rewrite ?Htimer; try reflexivity.
  - now apply get_int_raise in Hget as (_ & _ & _ & -> & _).
  - now apply get_int_some in Hget as (_ & _ & _ & _ & _ & -> & _).
  - apply get_int_some in Hget as (_ & _ & _ & _ & _ & -> & _).
    rewrite feedback_attempts_shown, Ha. cbn [app]. apply IH.
    cbn [next_state attempts_left]. now rewrite Ha.
Qed.

(** The hints printed are those of the wrong guesses, in order. *)
Lemma round_loop_hints fuel cfg secret clock st :
  let out := fst (round_loop fuel cfg secret clock st) in
  hints out
  = map (fun g => give_hint secret g 0 0)
      (List.filter (fun g => negb (g =? secret)) (recorded out)).
Proof.
  revert st. induction fuel as [|fuel IH]; intros st; [reflexivity|].
  destruct (round_loop_view fuel cfg secret clock st)
    as [Hup|Hup Hatt|out_read e Hup Hatt Hget|out_read rest Hup Hatt Hget
        |out_read g rest Hup Hatt Hget Hne];
    cbn [fst emit]; cbv zeta; rewrite ?recorded_app, ?hints_app;
    destruct (timer_line_quiet cfg clock st) as (Htimer & Htimer' & _);
    rewrite ?Htimer, ?Htimer'; try reflexivity.
  - now apply get_int_raise in Hget as (_ & -> & -> & _).
  - apply get_int_some in Hget as (_ & _ & _ & -> & -> & _).
    cbn. now rewrite Z.eqb_refl.
  - apply get_int_some in Hget as (_ & _ & _ & -> & -> & _).
    rewrite feedback_hints, feedback_recorded. cbn [app List.filter].
    apply Z.eqb_neq in Hne. rewrite Hne. cbn [negb map]. f_equal. apply IH.
Qed.

(** The timer shown is a whole number of seconds from 0 to the limit, as
    long as the clock does not run backwards past the start. *)
Lemma py_int_remaining t elapsed :
  (0 <= elapsed)%Q -> (elapsed <= inject_Z t)%Q ->
  0 <= py_int (pymax 0 (inject_Z t - elapsed)%Q) <= t.
Proof.
  intros H0 Ht. unfold pymax, Qgtb.
  destruct (Qle_bool (inject_Z t - elapsed) 0) eqn:E; cbn [negb].
  - unfold Qle in H0, Ht. destruct elapsed as [n d].
    cbn [Qnum Qden inject_Z] in H0, Ht. pose proof (Pos2Z.is_pos d).
    change (py_int 0) with 0. nia.
  - unfold py_int, Qle in *. destruct elapsed as [n d].
    cbn [Qminus Qplus Qopp Qnum Qden inject_Z] in *.
    pose proof (Pos2Z.is_pos d). rewrite Pos.mul_1_l. split.
    + apply Z.quot_pos; lia.
    + apply Z.quot_le_upper_bound; lia.
Qed.

Lemma round_loop_timers fuel cfg secret clock st :
  (forall k, 0 <= clock k)%Q ->
  Forall (fun r => 0 <= r <= default 0 (p_time_limit cfg))
    (timers_shown (fst (round_loop fuel cfg secret clock st))).
Proof.
  intros Hclock. revert st. induction fuel as [|fuel IH]; intros st; [constructor|].
  assert (Htimer : time_is_up cfg clock st = false ->
            Forall (fun r => 0 <= r <= default 0 (p_time_limit cfg))
              (timers_shown (timer_line cfg clock st))).
  { unfold time_is_up, timer_line.
    destruct (truthy_opt (p_time_limit cfg)); [|constructor].
    cbn [andb]. unfold Qgtb. intros Hle. apply negb_false_iff, Qle_bool_iff in Hle.
    repeat constructor; apply py_int_remaining; auto. }
  destruct (round_loop_view fuel cfg secret clock st)
    as [Hup|Hup Hatt|out_read e Hup Hatt Hget|out_read rest Hup Hatt Hget
        |out_read g rest Hup Hatt Hget Hne];
    cbn [fst emit]; rewrite ?timers_shown_app.
  - constructor.
  - rewrite app_nil_r. exact (Htimer Hup).
  - apply get_int_raise in Hget as (_ & _ & _ & _ & ->). rewrite app_nil_r.
    exact (Htimer Hup).
  - apply get_int_some in Hget as (_ & _ & _ & _ & _ & _ & ->).
    rewrite app_nil_r. exact (Htimer Hup).
  - apply get_int_some in Hget as (_ & _ & _ & _ & _ & _ & ->).
    rewrite feedback_timers. cbn [app]. rewrite app_nil_r. apply Forall_app.
    split; [exact (Htimer Hup) | apply IH].
Qed.

(** A hint given in play never says "Correct!". *)
Lemma give_hint_not_correct secret guess attempt max_attempts :
  guess <> secret ->
  give_hint secret guess attempt max_attempts <> "Correct!"%string.
Proof.
  intros Hne. unfold give_hint.
  destruct (Z.eqb_spec (Z.abs (secret - guess)) 0) as [Hd|Hd]; [lia|].
  destruct (Qle_bool _ _); [discriminate|].
  destruct (Z.abs (secret - guess) <=? 3); [discriminate|].
  destruct (Z.abs (secret - guess) <=? 10); discriminate.
Qed.

(** ** Which keys are known *)

Lemma difficulty_keys key :
  is_Some (DIFFICULTIES !! key) <-> In key difficulty_order.
Proof.
  split.
  - intros [cfg Hk].
    destruct (decide (key ∈ (difficulty_order : list string))) as [Hin|Hout].
    + now apply list_elem_of_In.
    + apply (not_elem_of_list_to_map_1 (M := gmap string)
               [ ("easy"%string,   Profile 1 50   (Some 10) None);
                 ("medium"%string, Profile 1 200  (Some 8)  None);
                 ("hard"%string,   Profile 1 1000 (Some 10) None);
                 ("timed"%string,  Profile 1 500  None      (Some 20)) ]) in Hout.
      unfold DIFFICULTIES in Hk. congruence.
  - cbn. intros [<-|[<-|[<-|[<-|[]]]]]; eexists; reflexivity.
Qed.

Lemma base_score_keys key :
  is_Some (base_scores !! key) <-> In key difficulty_order.
Proof.
  split.
  - intros [base Hk].
    destruct (decide (key ∈ (difficulty_order : list string))) as [Hin|Hout].
    + now apply list_elem_of_In.
    + apply (not_elem_of_list_to_map_1 (M := gmap string)
               [ ("easy"%string, 50); ("medium"%string, 120);
                 ("hard"%string, 300); ("timed"%string, 200) ]) in Hout.
      unfold base_scores in Hk. congruence.
  - cbn. intros [<-|[<-|[<-|[<-|[]]]]]; eexists; reflexivity.
Qed.

Lemma base_of_known key :
  In key difficulty_order ->
  exists base, getitem base_scores key = Ret base /\ 50 <= base <= 300.
Proof.
  cbn. intros [<-|[<-|[<-|[<-|[]]]]]; eexists; (split; [reflexivity | lia]).
Qed.

(** How a round of a known mode can end. *)
Lemma play_round_outcome key cfg player secret clock inp :
  DIFFICULTIES !! key = Some cfg ->
  match snd (play_round key player secret clock inp) with
  | Ret result =>
      exists (won : bool) (k : nat),
        result = round_result won k secret /\
        k = length (recorded (fst (play_round key player secret clock inp))) /\
        (won = true -> (1 <= k)%nat)
  | Raise e => e = EOFError \/ e = ValueError
  | OutOfFuel => False
  end.
Proof.
  intros Hk. rewrite (play_round_known _ _ _ _ _ _ Hk). cbn [emit fst snd].
  set (st := LoopState [] (p_attempts cfg) 0 inp).
  pose proof (round_loop_result (S (length inp)) cfg secret clock st) as Hres.
  pose proof (round_loop_raises (S (length inp)) cfg secret clock st) as Hraise.
  pose proof (round_loop_fuel (S (length inp)) cfg secret clock st) as Hfuel.
  destruct (snd (round_loop (S (length inp)) cfg secret clock st)) as [result|e|].
  - destruct (Hres result eq_refl) as (won & -> & Hw).
    exists won, (length (recorded (fst (round_loop (S (length inp)) cfg secret clock st)))).
    destruct (banner_silent cfg player) as (Hb & _).
    rewrite recorded_app, Hb. cbn [app guesses st length Nat.add].
    repeat split. intros ->. destruct Hw as [[_ Hl]|[Hf _]]; [|discriminate].
    destruct (recorded _); [discriminate | cbn; lia].
  - now apply Hraise.
  - apply Hfuel; [cbn; lia | reflexivity].
Qed.

(* ================================================================== *)
(** * The deadline of a timed round *)
(* ================================================================== *)

Lemma time_is_up_true cfg t clock st :
  p_time_limit cfg = Some t -> time_is_up cfg clock st = true ->
  (inject_Z t < clock (ticks st))%Q.
Proof.
  unfold time_is_up. intros ->. change (default 0 (Some t)) with t. intros H.
  apply andb_true_iff in H as [_ H]. unfold Qgtb in H. apply negb_true_iff in H.
  apply Qnot_le_lt. intros Hle. apply Qle_bool_iff in Hle. congruence.
Qed.

Lemma time_is_up_false cfg t clock st :
  p_time_limit cfg = Some t -> t <> 0 -> time_is_up cfg clock st = false ->
  (clock (ticks st) <= inject_Z t)%Q.
Proof.
  unfold time_is_up. intros -> Ht. change (default 0 (Some t)) with t.
  cbn [truthy_opt]. apply Z.eqb_neq in Ht. rewrite Ht. cbn [negb andb].
  unfold Qgtb. intros H. apply negb_false_iff in H. now apply Qle_bool_iff.
Qed.

(** With a time limit the clock is read once per turn.  Every guess
    recorded from a state on was asked for after a reading within the
    limit; the loop returns a loss on time exactly at a reading above the
    limit, and every other way out of the loop follows a reading within
    it. *)
Lemma round_loop_deadline fuel cfg t secret clock st :
  p_time_limit cfg = Some t -> t <> 0 ->
  let out := fst (round_loop fuel cfg secret clock st) in
  let n := length (recorded out) in
  (forall i, (i < n)%nat -> (clock (ticks st + i)%nat <= inject_Z t)%Q) /\
  match snd (round_loop fuel cfg secret clock st) with
  | Ret result =>
      (result = round_result true (length (guesses st) + n) secret /\
       last out = Some OutCorrect) \/
      (result = round_result false (length (guesses st) + n) secret /\
       (inject_Z t < clock (ticks st + n)%nat)%Q /\ last out = Some OutTimeUp) \/
      (result = round_result false (length (guesses st) + n) secret /\
       attempts_left st <> None /\
       (clock (ticks st + n)%nat <= inject_Z t)%Q /\
       last out = Some OutNoAttempts)
  | Raise _ => (clock (ticks st + n)%nat <= inject_Z t)%Q
  | OutOfFuel => True
  end.
Proof.
  intros Hc Ht. revert st. induction fuel as [|fuel IH]; intros st.
  { cbn. split; [intros i Hi; lia | exact I]. }
  assert (Htimed : truthy_opt (p_time_limit cfg) = true).
  { rewrite Hc. cbn [truthy_opt]. now apply negb_true_iff, Z.eqb_neq. }
  destruct (round_loop_view fuel cfg secret clock st)
    as [Hup|Hup Hatt|out_read e Hup Hatt Hget|out_read rest Hup Hatt Hget
        |out_read g rest Hup Hatt Hget Hne];
    cbn [fst snd emit]; cbv zeta; rewrite ?recorded_app;
    destruct (timer_line_quiet cfg clock st) as (Htimer & _ & _);
    rewrite ?Htimer.
  - cbn [recorded flat_map app length]. rewrite !Nat.add_0_r.
    split; [intros i Hi; lia|]. right. left.
    split; [reflexivity|]. split; [now apply time_is_up_true with cfg | reflexivity].
  - cbn [recorded flat_map app length]. rewrite !Nat.add_0_r.
    split; [intros i Hi; lia|]. right. right.
    split; [reflexivity|]. split.
    { unfold out_of_attempts in Hatt. destruct (attempts_left st); discriminate. }
    split; [now apply time_is_up_false with cfg | apply last_snoc].
  - apply get_int_raise in Hget as (_ & -> & _).
    cbn [app length]. rewrite Nat.add_0_r.
    split; [intros i Hi; lia|]. now apply time_is_up_false with cfg.
  - apply get_int_some in Hget as (_ & _ & _ & -> & _).
    cbn [recorded flat_map app length]. split.
    + intros i Hi. replace i with 0%nat by lia. rewrite Nat.add_0_r.
      now apply time_is_up_false with cfg.
    + left. rewrite length_app. cbn [length]. split; [reflexivity|].
      rewrite !last_app. reflexivity.
  - apply get_int_some in Hget as (_ & _ & _ & -> & _).
    rewrite feedback_recorded. cbn [app length].
    specialize (IH (next_state cfg st g rest)).
    cbn [next_state ticks guesses attempts_left] in IH. rewrite Htimed in IH.
    rewrite length_app in IH. cbn [length] in IH.
    cbv zeta in IH. destruct IH as [Hbefore Hend].
    set (run := fst (round_loop fuel cfg secret clock (next_state cfg st g rest))) in *.
    replace (ticks st + S (length (recorded run)))%nat
      with (S (ticks st) + length (recorded run))%nat by lia.
    replace (length (guesses st) + S (length (recorded run)))%nat
      with (length (guesses st) + 1 + length (recorded run))%nat by lia.
    split.
    + intros [|i] Hi.
      * rewrite Nat.add_0_r. now apply time_is_up_false with cfg.
      * replace (ticks st + S i)%nat with (S (ticks st) + i)%nat by lia.
        apply Hbefore. lia.
    + destruct (snd (round_loop fuel cfg secret clock (next_state cfg st g rest)))
        as [result|e|]; [|exact Hend|exact I].
      destruct Hend as [(-> & Hlast)|[(-> & Hlate & Hlast)|(-> & Hsome & Hin & Hlast)]].
      * left. split; [reflexivity|]. now rewrite last_app, Hlast.
      * right. left. split; [reflexivity|]. split; [exact Hlate|].
        now rewrite last_app, Hlast.
      * right. right. split; [reflexivity|]. split.
        { intros Hnone. apply Hsome. now rewrite Hnone. }
        split; [exact Hin|]. now rewrite last_app, Hlast.
Qed.

(** C3.  In a round with a time limit, every turn of the loop starts with the time
    check: when the elapsed time is strictly above the limit the round ends
    there as lost, with the guesses recorded so far and no new guess read;
    when it is at most the limit (equality included) the turn does not end
    so, and shows the timer.  Over a whole round in timed mode, where the
    clock is read once per turn: every guess recorded was asked for after a
    reading of at most 20; a round that returns is either won, on the
    secret as the last guess recorded, or lost on time, and it is lost on
    time only at a reading strictly above 20, with the guesses recorded
    before that reading, none of them the secret, and the time-up line
    printed last; a round that ends on an exception while reading a guess
    had its last reading at most 20.  In timed mode, a first reading above 20 gives
    a lost round with 0 attempts, the score 0, and a highscore file left as
    it was. *)
Theorem timed_round_time_check (cfg : profile) (t : Z) (fuel : nat) (secret : Z)
    (clock : nat -> Q) (st : loop_state) (player : string) (inp : list line)
    (now : string) (fs : file_state) :
  p_time_limit cfg = Some t -> t <> 0 ->
  let elapsed := clock (ticks st) in
  let turn := round_loop (S fuel) cfg secret clock st in
  let lost : list event * outcome (gmap string value) :=
    ([OutTimeUp], Ret (round_result false (length (guesses st)) secret)) in
  ((inject_Z t < elapsed)%Q -> turn = lost) /\
  ((elapsed <= inject_Z t)%Q ->
     turn <> lost /\
     hd_error (fst turn)
     = Some (OutTimer (py_int (pymax 0 (inject_Z t - elapsed))))) /\
  (let out := fst (play_round "timed" player secret clock inp) in
   let n := length (recorded out) in
   (forall i, (i < n)%nat -> (clock i <= 20)%Q) /\
   match snd (play_round "timed" player secret clock inp) with
   | Ret result =>
       (result = round_result true n secret /\
        last (recorded out) = Some secret /\ last out = Some OutCorrect) \/
       (result = round_result false n secret /\
        ~ In secret (recorded out) /\
        (20 < clock n)%Q /\ last out = Some OutTimeUp)
   | Raise _ => (clock n <= 20)%Q
   | OutOfFuel => False
   end) /\
  ((20 < clock 0%nat)%Q ->
     play_round "timed" player secret clock inp
     = ([OutIntro 1 500 player; OutYouHaveSeconds 20; OutTimeUp],
        Ret (round_result false 0 secret)) /\
     compute_score (round_result false 0 secret) "timed" = Ret 0 /\
     main_play player "timed" secret clock inp now fs
     = ([OutIntro 1 500 player; OutYouHaveSeconds 20; OutTimeUp;
         OutResult false 0; OutSecretWas (VInt secret)],
        Ret fs)).
Proof.
  intros Hc Ht elapsed turn lost. split; [|split; [|split]].
  - intros Hlt. now apply round_loop_time_up with t.
  - intros Hle.
    pose proof (round_loop_in_time fuel cfg t secret clock st Hc Ht Hle) as Hhd.
    split; [|exact Hhd].
    intros Heq. fold turn in Hhd. rewrite Heq in Hhd. discriminate.
  - pose proof (play_round_ends "timed" player secret clock inp) as Hends.
    rewrite (play_round_known _ _ _ _ _ _ timed_profile) in *.
    cbn [emit fst snd] in *.
    set (timed := Profile 1 500 None (Some 20)) in *.
    set (st0 := LoopState [] (p_attempts timed) 0 inp) in *.
    destruct (round_loop_deadline (S (length inp)) timed 20 secret clock st0
                eq_refl ltac:(lia)) as [Hbefore Hend].
    pose proof (round_loop_result (S (length inp)) timed secret clock st0) as Hres.
    destruct (banner_silent timed player) as (Hb & _).
    rewrite recorded_app, Hb. cbn [app].
    cbv zeta in Hres.
    cbn [st0 ticks guesses length Nat.add attempts_left] in Hbefore, Hend, Hres.
    split; [exact Hbefore|].
    destruct (snd (round_loop (S (length inp)) timed secret clock st0))
      as [result|e|]; [|exact Hend|now apply Hends].
    destruct (Hres result eq_refl) as (won & Hwon & Hsecret).
    assert (Hflag : result !! "win"%string = Some (VBool won))
      by (rewrite Hwon; apply round_result_win).
    destruct Hend as [(-> & Hlast)|[(-> & Hlate & Hlast)|(_ & Hsome & _)]].
    + left. split; [reflexivity|]. split; [|now rewrite last_app, Hlast].
      destruct Hsecret as [[_ Hs]|[-> _]]; [exact Hs|].
      rewrite round_result_win in Hflag. discriminate.
    + right. split; [reflexivity|]. split; [|split; [exact Hlate|]].
      * destruct Hsecret as [[-> _]|[_ Hs]]; [|exact Hs].
        rewrite round_result_win in Hflag. discriminate.
      * now rewrite last_app, Hlast.
    + now destruct Hsome.
  - intros Hlate.
    assert (Hplay : play_round "timed" player secret clock inp
                    = ([OutIntro 1 500 player; OutYouHaveSeconds 20; OutTimeUp],
                       Ret (round_result false 0 secret))).
    { rewrite (play_round_known _ _ _ _ _ _ timed_profile).
      rewrite (round_loop_time_up _ _ 20); [reflexivity | reflexivity | lia | exact Hlate]. }
    assert (Hscore : compute_score (round_result false 0 secret) "timed" = Ret 0).
    { apply compute_score_lost with 200; reflexivity. }
    split; [exact Hplay|]. split; [exact Hscore|].
    unfold main_play. rewrite Hplay, Hscore. reflexivity.
Qed.

Lemma timed_round_time_check_witness :
  round_loop 1 (Profile 1 500 None (Some 20)) 321 (fun _ => 21%Q)
    (LoopState [] None 0 [Number 5])
  = ([OutTimeUp], Ret (round_result false 0 321)) /\
  main_play "Ann" "timed" 321 (fun _ => 21%Q) [Number 5] "2024-05-01T10:00:00" Missing
  = ([OutIntro 1 500 "Ann"; OutYouHaveSeconds 20; OutTimeUp;
      OutResult false 0; OutSecretWas (VInt 321)],
     Ret Missing).
Proof.
  destruct (timed_round_time_check (Profile 1 500 None (Some 20)) 20 0 321
              (fun _ => 21%Q) (LoopState [] None 0 [Number 5]) "Ann" [Number 5]
              "2024-05-01T10:00:00" Missing)
    as (Hup & _ & _ & Hscenario).
  - reflexivity.
  - discriminate.
  - split.
    + apply Hup. reflexivity.
    + apply Hscenario. reflexivity.
Defined.

(** A reading equal to the limit does not end the round; the first reading
    above it does, and the guess typed after it is not looked at. *)
Example timed_round_late_guess :
  play_round "timed" "Ann" 321 (fun i => if (i <? 2)%nat then 20%Q else 21%Q)
    [Number 5; Number 6; Number 321]
  = ([OutIntro 1 500 "Ann"; OutYouHaveSeconds 20;
      OutTimer 0; InGuess 5; OutHint "Not that close. Try higher.";
      OutTimer 0; InGuess 6; OutHint "Not that close. Try higher.";
      OutTimeUp],
     Ret (round_result false 2 321)).
Proof. vm_compute. reflexivity. Qed.

(* ================================================================== *)
(** * Further properties of the input, the rounds and the score *)
(* ================================================================== *)

(** X1.  [get_int] passes over the empty lines, the lines that are not
    integers and the integers out of range, answering each with the
    complaint that fits, and stops at the first other line.  If that line
    is a number in range, it returns it and leaves the lines after it
    unread; if it is a line that [int] refuses, the [ValueError] of [int]
    ends the call; and if there is no such line, the end of the input
    does. *)
Theorem get_int_first_in_range (min_val max_val : option Z) (inp : list line) :
  exists skipped,
    Forall (fun l => passed_over min_val max_val l = true) skipped /\
    match get_int min_val max_val inp with
    | (out, Ret (n, rest)) =>
        inp = skipped ++ Number n :: rest /\
        in_range min_val max_val n = true /\
        out = flat_map (complaint min_val max_val) skipped
    | (out, Raise e) =>
        out = flat_map (complaint min_val max_val) skipped /\
        ((e = ValueError /\ exists s rest, inp = skipped ++ Refused s :: rest) \/
         (e = EOFError /\ inp = skipped))
    | (out, OutOfFuel) => False
    end.
Proof.
  destruct (get_int_scan min_val max_val inp) as (skipped & Hsk & Hout & Hres).
  exists skipped. split; [exact Hsk|].
  destruct (get_int min_val max_val inp) as [out [[n rest]|e|]];
    cbn [fst snd] in Hout, Hres.
  - destruct Hres as [Hinp Hn]. now repeat split.
  - now split.
  - exact Hres.
Qed.

(** X2.  Every guess recorded in a round lies within the range of its mode. *)
Theorem play_round_guesses_in_range (key player : string) (secret : Z)
    (clock : nat -> Q) (inp : list line) :
  let out := fst (play_round key player secret clock inp) in
  match DIFFICULTIES !! key with
  | Some cfg => Forall (fun g => p_min cfg <= g <= p_max cfg) (recorded out)
  | None => recorded out = []
  end.
Proof.
  intros out. subst out. destruct (DIFFICULTIES !! key) as [cfg|] eqn:Hk.
  - rewrite (play_round_known _ _ _ _ _ _ Hk). cbn [emit fst].
    destruct (banner_silent cfg player) as (Hb & _). rewrite recorded_app, Hb.
    apply round_loop_guesses_in_range.
  - now rewrite (play_round_unknown _ _ _ _ _ Hk).
Qed.

(** X3.  In a mode with a number of attempts, no round records more guesses
    than that; in a mode without, no count of attempts left is shown. *)
Theorem play_round_attempts_bound (key player : string) (secret : Z)
    (clock : nat -> Q) (inp : list line) :
  let out := fst (play_round key player secret clock inp) in
  match DIFFICULTIES !! key with
  | Some cfg =>
      match p_attempts cfg with
      | Some a => (length (recorded out) <= Z.to_nat a)%nat
      | None => attempts_shown out = []
      end
  | None => out = []
  end.
Proof.
  intros out. subst out. destruct (DIFFICULTIES !! key) as [cfg|] eqn:Hk.
  - rewrite (play_round_known _ _ _ _ _ _ Hk). cbn [emit fst].
    destruct (banner_silent cfg player) as (Hb & _ & Hb' & _).
    rewrite recorded_app, attempts_shown_app, Hb, Hb'. cbn [app].
    destruct (p_attempts cfg) as [a|] eqn:Ha.
    + now apply round_loop_attempts_bound.
    + now apply round_loop_no_countdown.
  - now rewrite (play_round_unknown _ _ _ _ _ Hk).
Qed.

(** X4.  In a mode without a time limit a round is lost only by using up the
    attempts: the result then counts exactly the attempts of the mode, and
    the last line printed is the "no attempts left" one. *)
Theorem play_round_lost_by_attempts (key player : string) (secret : Z)
    (clock : nat -> Q) (inp : list line) (cfg : profile) (a : Z)
    (result : gmap string value) :
  DIFFICULTIES !! key = Some cfg ->
  p_time_limit cfg = None ->
  p_attempts cfg = Some a -> 0 <= a ->
  snd (play_round key player secret clock inp) = Ret result ->
  result !! "win"%string = Some (VBool false) ->
  result = round_result false (Z.to_nat a) secret /\
  length (recorded (fst (play_round key player secret clock inp))) = Z.to_nat a /\
  last (fst (play_round key player secret clock inp)) = Some OutNoAttempts.
Proof.
  intros Hk Ht Ha Hpos Hres Hwin.
  pose proof (play_round_outcome key cfg player secret clock inp Hk) as Hout.
  rewrite Hres in Hout. destruct Hout as (won & k & -> & Hlen & _).
  rewrite round_result_win in Hwin. injection Hwin as ->.
  rewrite (play_round_known _ _ _ _ _ _ Hk) in *. cbn [emit fst snd] in *.
  destruct (banner_silent cfg player) as (Hb & _).
  rewrite recorded_app, Hb in *. cbn [app] in *.
  destruct (round_loop_lost_untimed (S (length inp)) cfg secret clock
              (LoopState [] (p_attempts cfg) 0 inp) a
              (round_result false k secret)) as [Hn Hlast]; auto.
  { now rewrite Ht. }
  split; [congruence|]. split; [exact Hn|].
  rewrite last_app, Hlast. reflexivity.
Qed.

Lemma play_round_lost_by_attempts_witness :
  let inp := [Number 1; Number 2; Number 3; Number 4;
              Number 5; Number 6; Number 7; Number 8; Number 100] in
  length (recorded (fst (play_round "medium" "Ann" 100 (fun _ => 0%Q) inp))) = 8%nat /\
  last (fst (play_round "medium" "Ann" 100 (fun _ => 0%Q) inp)) = Some OutNoAttempts.
Proof.
  intros inp.
  destruct (play_round_lost_by_attempts "medium" "Ann" 100 (fun _ => 0%Q) inp
              (Profile 1 200 (Some 8) None) 8 (round_result false 8 100))
    as (_ & Hlen & Hlast).
  - reflexivity.
  - reflexivity.
  - reflexivity.
  - lia.
  - vm_compute. reflexivity.
  - reflexivity.
  - split; [exact Hlen | exact Hlast].
Defined.

(** X5.  In a mode with a number of attempts, a round whose input holds at
    least that many in-range numbers, and no line that [int] refuses,
    returns a result: it does not run out of input. *)
Theorem play_round_returns (key player : string) (secret : Z)
    (clock : nat -> Q) (inp : list line) (cfg : profile) (a : Z) :
  DIFFICULTIES !! key = Some cfg ->
  p_attempts cfg = Some a ->
  Forall (fun l => readable l = true) inp ->
  (Z.to_nat a <= count_accepted (Some (p_min cfg)) (Some (p_max cfg)) inp)%nat ->
  exists result, snd (play_round key player secret clock inp) = Ret result.
Proof.
  intros Hk Ha Hread Hcount. rewrite (play_round_known _ _ _ _ _ _ Hk). cbn [emit snd].
  apply round_loop_returns with a; cbn [attempts_left pending]; auto.
Qed.

Lemma play_round_returns_witness :
  exists result,
    snd (play_round "medium" "Ann" 100 (fun _ => 0%Q)
           [Number 1; Blank; Number 2; Number 900; Number 3; Number 4;
            Number 5; Junk "x"; Number 6; Number 7; Number 8])
    = Ret result.
Proof.
  apply (play_round_returns "medium" "Ann" 100 (fun _ => 0%Q) _
           (Profile 1 200 (Some 8) None) 8).
  - reflexivity.
  - reflexivity.
  - repeat constructor.
  - vm_compute. lia.
Defined.

(** X6.  The modes without a time limit never look at the clock: the same
    input gives the same round whatever the clock says. *)
Theorem untimed_rounds_ignore_clock (player : string) (secret : Z)
    (clock clock' : nat -> Q) (inp : list line) :
  play_round "easy" player secret clock inp
  = play_round "easy" player secret clock' inp /\
  play_round "medium" player secret clock inp
  = play_round "medium" player secret clock' inp /\
  play_round "hard" player secret clock inp
  = play_round "hard" player secret clock' inp.
Proof.
  repeat split.
  - rewrite !(play_round_known "easy" (Profile 1 50 (Some 10) None)) by reflexivity.
    f_equal. now apply round_loop_untimed.
  - rewrite !(play_round_known "medium" (Profile 1 200 (Some 8) None)) by reflexivity.
    f_equal. now apply round_loop_untimed.
  - rewrite !(play_round_known "hard" (Profile 1 1000 (Some 10) None)) by reflexivity.
    f_equal. now apply round_loop_untimed.
Qed.

(** X7.  The "attempts left" printed in a round count down by one from the
    attempts of the mode, one count after each hint, and are never
    negative. *)
Theorem play_round_countdown (key player : string) (secret : Z)
    (clock : nat -> Q) (inp : list line) :
  let out := fst (play_round key player secret clock inp) in
  match DIFFICULTIES !! key with
  | Some cfg =>
      match p_attempts cfg with
      | Some a =>
          attempts_shown out = countdown a (length (hints out)) /\
          Forall (fun k => 0 <= k) (attempts_shown out)
      | None => attempts_shown out = []
      end
  | None => out = []
  end.
Proof.
  intros out. subst out. destruct (DIFFICULTIES !! key) as [cfg|] eqn:Hk.
  - rewrite (play_round_known _ _ _ _ _ _ Hk). cbn [emit fst].
    destruct (banner_silent cfg player) as (_ & Hb & Hb' & _).
    rewrite hints_app, attempts_shown_app, Hb, Hb'. cbn [app].
    destruct (p_attempts cfg) as [a|] eqn:Ha.
    + now apply round_loop_countdown.
    + now apply round_loop_no_countdown.
  - now rewrite (play_round_unknown _ _ _ _ _ Hk).
Qed.

(** X8.  The hints printed in a round are the hints of its wrong guesses, one
    each and in order; none of them says "Correct!". *)
Theorem play_round_hints (key player : string) (secret : Z)
    (clock : nat -> Q) (inp : list line) :
  let out := fst (play_round key player secret clock inp) in
  let wrong := List.filter (fun g => negb (g =? secret)) (recorded out) in
  hints out = map (fun g => give_hint secret g 0 0) wrong /\
  Forall (fun h => h <> "Correct!"%string) (hints out).
Proof.
  intros out wrong.
  assert (Hh : hints out = map (fun g => give_hint secret g 0 0) wrong).
  { subst out wrong. destruct (DIFFICULTIES !! key) as [cfg|] eqn:Hk.
    - rewrite (play_round_known _ _ _ _ _ _ Hk). cbn [emit fst].
      destruct (banner_silent cfg player) as (Hb & Hb' & _).
      rewrite hints_app, recorded_app, Hb, Hb'. apply round_loop_hints.
    - now rewrite (play_round_unknown _ _ _ _ _ Hk). }
  split; [exact Hh|]. rewrite Hh. apply List.Forall_forall.
  intros h Hin. apply in_map_iff in Hin as (g & <- & Hg).
  apply filter_In in Hg as [_ Hg]. apply negb_true_iff, Z.eqb_neq in Hg.
  now apply give_hint_not_correct.
Qed.

(** X9.  In timed mode the seconds shown by the timer are between 0 and 20,
    provided the clock never reads a time before the start of the round. *)
Theorem timed_round_timer_bounds (player : string) (secret : Z)
    (clock : nat -> Q) (inp : list line) :
  (forall k, 0 <= clock k)%Q ->
  Forall (fun r => 0 <= r <= 20)
    (timers_shown (fst (play_round "timed" player secret clock inp))).
Proof.
  intros Hclock. rewrite (play_round_known _ _ _ _ _ _ timed_profile).
  cbn [emit fst]. rewrite timers_shown_app.
  apply (round_loop_timers _ (Profile 1 500 None (Some 20)) _ _ _ Hclock).
Qed.

Lemma timed_round_timer_bounds_witness :
  Forall (fun r => 0 <= r <= 20)
    (timers_shown
       (fst (play_round "timed" "Ann" 321
               (fun k => inject_Z (7 * Z.of_nat k) + (1 # 2))%Q
               [Number 5; Number 400; Number 321]))).
Proof.
  apply timed_round_timer_bounds.
  intros k. unfold Qle. cbn. lia.
Defined.

Lemma known_key_of_round key player secret clock inp result :
  snd (play_round key player secret clock inp) = Ret result ->
  exists cfg, DIFFICULTIES !! key = Some cfg.
Proof.
  destruct (DIFFICULTIES !! key) as [cfg|] eqn:Hk; [eauto|].
  rewrite (play_round_unknown _ _ _ _ _ Hk). discriminate.
Qed.

(** The result of a round and its score. *)
Lemma played_round_scores_aux key player secret clock inp :
  match snd (play_round key player secret clock inp) with
  | Ret result =>
      exists (won : bool) (k : nat) (score : Z),
        result = round_result won k secret /\
        compute_score result key = Ret score /\
        if won then 50 <= score else score = 0
  | _ => True
  end.
Proof.
  destruct (snd (play_round key player secret clock inp)) as [result| |] eqn:Hres;
    [|exact I|exact I].
  destruct (known_key_of_round _ _ _ _ _ _ Hres) as [cfg Hk].
  pose proof (play_round_outcome key cfg player secret clock inp Hk) as Hout.
  rewrite Hres in Hout. destruct Hout as (won & k & -> & _ & _).
  destruct (base_of_known key) as (base & Hb & Hrange).
  { apply difficulty_keys. eauto. }
  exists won, k. destruct won.
  - eexists. split; [reflexivity|].
    split; [apply (compute_score_won _ _ _ (Z.of_nat k) Hb); reflexivity | lia].
  - exists 0. split; [reflexivity|].
    split; [apply (compute_score_lost _ _ _ Hb); reflexivity | reflexivity].
Qed.

(** X10.  The result of a round can always be scored with the key it was
    played with: a won round of [k] guesses scores the base of the mode plus
    [max(0, 50 - 5k)], between base and base + 45; a lost round scores 0. *)
Theorem played_round_scores (key player : string) (secret : Z)
    (clock : nat -> Q) (inp : list line) :
  let out := fst (play_round key player secret clock inp) in
  match snd (play_round key player secret clock inp) with
  | Ret result =>
      exists base score,
        getitem base_scores key = Ret base /\
        compute_score result key = Ret score /\
        ((result !! "win"%string = Some (VBool true) /\
          score = base + Z.max 0 (50 - 5 * Z.of_nat (length (recorded out))) /\
          base <= score <= base + 45) \/
         (result !! "win"%string = Some (VBool false) /\ score = 0))
  | _ => True
  end.
Proof.
  intros out. subst out.
  destruct (snd (play_round key player secret clock inp)) as [result| |] eqn:Hres;
    [|exact I|exact I].
  destruct (known_key_of_round _ _ _ _ _ _ Hres) as [cfg Hk].
  pose proof (play_round_outcome key cfg player secret clock inp Hk) as Hout.
  rewrite Hres in Hout. destruct Hout as (won & k & -> & <- & Hone).
  destruct (base_of_known key) as (base & Hb & Hrange).
  { apply difficulty_keys. eauto. }
  exists base. destruct won.
  - specialize (Hone eq_refl). eexists. split; [exact Hb|].
    split; [apply (compute_score_won _ _ _ (Z.of_nat k) Hb); reflexivity|].
    left. split; [reflexivity|]. split; lia.
  - exists 0. split; [exact Hb|].
    split; [apply (compute_score_lost _ _ _ Hb); reflexivity|].
    right. split; reflexivity.
Qed.

(** X11.  For a won round, fewer attempts never score less: the score does
    not grow with the number of attempts, and from 10 attempts on it is the
    base of the mode. *)
Theorem fewer_attempts_score_more (key : string) (k1 k2 : nat) (s1 s2 : Z) :
  In key difficulty_order ->
  (k1 <= k2)%nat ->
  exists base score1 score2,
    getitem base_scores key = Ret base /\
    compute_score (round_result true k1 s1) key = Ret score1 /\
    compute_score (round_result true k2 s2) key = Ret score2 /\
    score2 <= score1 /\
    ((10 <= k2)%nat -> score2 = base).
Proof.
  intros Hkey Hle. destruct (base_of_known key Hkey) as (base & Hb & _).
  exists base. eexists. eexists. split; [exact Hb|].
  split; [apply (compute_score_won _ _ _ (Z.of_nat k1) Hb); reflexivity|].
  split; [apply (compute_score_won _ _ _ (Z.of_nat k2) Hb); reflexivity|].
  destruct (base_of_known key Hkey) as (base' & Hb' & Hr).
  assert (base' = base) by congruence. subst base'. split; lia.
Qed.

Lemma fewer_attempts_score_more_witness :
  exists base score1 score2,
    getitem base_scores "hard" = Ret base /\
    compute_score (round_result true 2 640) "hard" = Ret score1 /\
    compute_score (round_result true 11 17) "hard" = Ret score2 /\
    score2 <= score1 /\
    ((10 <= 11)%nat -> score2 = base).
Proof.
  apply (fewer_attempts_score_more "hard" 2 11 640 17).
  - cbn. right. right. left. reflexivity.
  - lia.
Defined.

(** X12.  [compute_score] raises [KeyError] on a key that is not one of the
    four modes, whatever the result holds, and on a result without a [win]
    field; the modes that can be scored are exactly those that can be
    played. *)
Theorem compute_score_key_errors (result : gmap string value) (key : string) :
  (base_scores !! key = None -> compute_score result key = Raise (KeyError key)) /\
  (is_Some (base_scores !! key) -> result !! "win"%string = None ->
   compute_score result key = Raise (KeyError "win")) /\
  (is_Some (base_scores !! key) <-> is_Some (DIFFICULTIES !! key)).
Proof.
  split; [|split].
  - intros Hk. unfold compute_score, getitem. now rewrite Hk.
  - intros [base Hk] Hw. unfold compute_score, getitem. rewrite Hk.
    cbn [mbind outcome_bind]. now rewrite Hw.
  - now rewrite base_score_keys, difficulty_keys.
Qed.

Lemma compute_score_key_errors_witness :
  compute_score (round_result true 1 5) "extreme" = Raise (KeyError "extreme") /\
  compute_score ∅ "easy" = Raise (KeyError "win").
Proof.
  destruct (compute_score_key_errors (round_result true 1 5) "extreme") as (H1 & _).
  destruct (compute_score_key_errors ∅ "easy") as (_ & H2 & _).
  split.
  - apply H1. reflexivity.
  - apply H2; [eexists; reflexivity | reflexivity].
Defined.

Lemma main_play_cases (player key : string) (secret : Z)
    (clock : nat -> Q) (inp : list line) (now : string) (fs : file_state) :
  let played := play_round key player secret clock inp in
  let shown := fst (main_play player key secret clock inp now fs) in
  let after := snd (main_play player key secret clock inp now fs) in
  match snd played with
  | Ret result =>
      exists score,
        compute_score result key = Ret score /\
        ((result !! "win"%string = Some (VBool true) /\ 50 <= score /\
          after = add_highscore player score key now fs /\
          last shown = Some OutSaved) \/
         (result !! "win"%string = Some (VBool false) /\ score = 0 /\
          after = Ret fs /\
          last shown = Some (OutSecretWas (VInt secret))))
  | Raise e => after = Raise e /\ shown = fst played
  | OutOfFuel => False
  end.
Proof.
  intros played shown after. subst played shown after.
  pose proof (played_round_scores_aux key player secret clock inp) as Hscore.
  pose proof (play_round_ends key player secret clock inp) as Hends.
  unfold main_play.
  destruct (play_round key player secret clock inp) as [out [result|e|]];
    cbn [fst snd] in *; [|split; reflexivity|now apply Hends].
  destruct Hscore as (won & k & score & -> & Hs & Hw).
  exists score. split; [exact Hs|]. rewrite Hs.
  rewrite round_result_win, round_result_secret.
  cbn [default from_option id truthy negb].
  destruct won.
  - left. replace (score >? 0) with true by (symmetry; apply Z.gtb_lt; lia).
    rewrite add_highscore_eq. cbn [snd fst app negb].
    split; [reflexivity|]. split; [lia|]. split; [reflexivity|].
    rewrite last_app. reflexivity.
  - right. subst score. change (0 >? 0) with false. cbn [snd fst app negb].
    split; [reflexivity|]. split; [reflexivity|]. split; [reflexivity|].
    rewrite last_app. reflexivity.
Qed.

(** X13.  The "play a round" branch stores a highscore exactly when the round
    was won: a won round is followed by [add_highscore] with its score, which
    is at least 50, and the confirmation is the last line printed; a lost
    round leaves the file as it was and ends by revealing the secret; an
    exception of the round is passed on. *)
Theorem main_play_saves_wins (player key : string) (secret : Z)
    (clock : nat -> Q) (inp : list line) (now : string) (fs : file_state) :
  let played := play_round key player secret clock inp in
  let shown := fst (main_play player key secret clock inp now fs) in
  let after := snd (main_play player key secret clock inp now fs) in
  match snd played with
  | Ret result =>
      exists score,
        compute_score result key = Ret score /\
        ((result !! "win"%string = Some (VBool true) /\ 50 <= score /\
          after = add_highscore player score key now fs /\
          last shown = Some OutSaved) \/
         (result !! "win"%string = Some (VBool false) /\ score = 0 /\
          after = Ret fs /\
          last shown = Some (OutSecretWas (VInt secret))))
  | Raise e => after = Raise e /\ shown = fst played
  | OutOfFuel => False
  end.
Proof. apply main_play_cases. Qed.

(* ================================================================== *)
(** * Further properties of the leaderboard *)
(* ================================================================== *)

Lemma sorted_desc_e_score lb : descending (sorted e_score lb true).
Proof. apply (sorted_rev_desc e_score). Qed.

(** X14.  An addition drops nothing while the board is under the cap, and
    what it drops at the cap never scores more than anything it keeps: the
    board written and the entries dropped are together the entries loaded
    and the new one. *)
Theorem add_highscore_drops_the_lowest (fs : file_state) (name : string)
    (score : Z) (difficulty now : string) :
  exists prior lb dropped,
    load_highscores fs = Ret prior /\
    add_highscore name score difficulty now fs = Ret (Stored lb) /\
    Permutation (lb ++ dropped)
      (prior ++ [Entry name score difficulty (now +:+ "Z")]) /\
    length dropped = (length prior + 1 - 50)%nat /\
    forall x y, In x lb -> In y dropped -> e_score y <= e_score x.
Proof.
  set (e := Entry name score difficulty (now +:+ "Z")).
  set (S := sorted e_score (stored_entries fs ++ [e]) true).
  exists (stored_entries fs), (take 50 S), (drop 50 S).
  split; [apply load_highscores_eq|].
  split; [apply add_highscore_eq|].
  split; [|split].
  - rewrite firstn_skipn. apply sorted_perm.
  - rewrite length_drop. unfold S.
    rewrite (Permutation_length (sorted_perm e_score _ true)), length_app.
    reflexivity.
  - intros x y Hx Hy. pose proof (sorted_desc_e_score (stored_entries fs ++ [e])) as Hd.
    fold S in Hd. rewrite <- (firstn_skipn 50 S) in Hd.
    unfold descending in Hd. apply StronglySorted_app in Hd.
    destruct Hd as (Hcross & _ & _).
    apply (Hcross x y); now apply list_elem_of_In.
Qed.

(** X15.  After an addition the board is not empty, and its first entry
    scores at least as much as every entry loaded and as the new one. *)
Theorem add_highscore_top_is_best (fs : file_state) (name : string)
    (score : Z) (difficulty now : string) :
  exists prior top rest,
    load_highscores fs = Ret prior /\
    add_highscore name score difficulty now fs = Ret (Stored (top :: rest)) /\
    score <= e_score top /\
    Forall (fun y => e_score y <= e_score top) prior.
Proof.
  set (e := Entry name score difficulty (now +:+ "Z")).
  pose proof (sorted_perm e_score (stored_entries fs ++ [e]) true) as Hperm.
  pose proof (sorted_desc_e_score (stored_entries fs ++ [e])) as Hd.
  destruct (sorted e_score (stored_entries fs ++ [e]) true) as [|top S] eqn:HS.
  { apply Permutation_length in Hperm. rewrite length_app in Hperm.
    cbn in Hperm. lia. }
  exists (stored_entries fs), top, (take 49 S).
  split; [apply load_highscores_eq|].
  split; [rewrite add_highscore_eq; fold e; rewrite HS; reflexivity|].
  apply StronglySorted_inv in Hd as [_ Htop].
  assert (Hall : forall y, In y (stored_entries fs ++ [e]) -> e_score y <= e_score top).
  { intros y Hy. apply (Permutation_in _ (Permutation_sym Hperm)) in Hy.
    destruct Hy as [<-|Hy]; [lia|].
    rewrite List.Forall_forall in Htop. now apply Htop. }
  split.
  - apply (Hall e). apply in_or_app. right. now left.
  - apply List.Forall_forall. intros y Hy. apply Hall, in_or_app. now left.
Qed.

(** X16.  On a board that is in descending order, an addition is a plain
    insertion: the new entry goes below the entries that score at least as
    much and above those that score less, the others keep their places, and
    the result is cut at 50. *)
Theorem add_highscore_inserts (entries : list entry) (name : string)
    (score : Z) (difficulty now : string) :
  descending entries ->
  exists above below,
    entries = above ++ below /\
    Forall (fun x => score <= e_score x) above /\
    Forall (fun x => e_score x < score) below /\
    add_highscore name score difficulty now (Stored entries)
    = Ret (Stored (take 50
             (above ++ Entry name score difficulty (now +:+ "Z") :: below))).
Proof.
  intros Hd. set (e := Entry name score difficulty (now +:+ "Z")).
  destruct (insert_desc_split e_score e entries) as (above & below & He & Hi & Ha & Hb).
  exists above, below. split; [exact He|]. split; [exact Ha|].
  split; [exact (Hb Hd)|].
  rewrite add_highscore_eq. cbn [stored_entries]. fold e.
  rewrite sorted_rev_snoc, (insert_desc_fold_id e_score entries Hd), Hi.
  reflexivity.
Qed.

Lemma add_highscore_inserts_witness :
  let board := [Entry "Ann" 300 "hard" "d1"; Entry "Bob" 120 "medium" "d2";
                Entry "Dee" 85 "easy" "d3"] in
  exists above below,
    board = above ++ below /\
    Forall (fun x => 120 <= e_score x) above /\
    Forall (fun x => e_score x < 120) below /\
    add_highscore "Cy" 120 "medium" "2024-05-01T10:00:00" (Stored board)
    = Ret (Stored (take 50
             (above ++ Entry "Cy" 120 "medium" ("2024-05-01T10:00:00" +:+ "Z")
                :: below))).
Proof.
  intros board.
  apply (add_highscore_inserts board "Cy" 120 "medium" "2024-05-01T10:00:00").
  repeat constructor; cbn; lia.
Defined.

(* ================================================================== *)
(** * Showing the board *)
(* ================================================================== *)

Lemma enumerate_lookup {A : Type} (l : list A) (start : Z) (i : nat) :
  enumerate start l !! i = (fun x => (start + Z.of_nat i, x)) <$> l !! i.
Proof.
  revert start i. induction l as [|x l IH]; intros start [|i]; try reflexivity.
  - cbn. do 2 f_equal. lia.
  - cbn [enumerate]. rewrite !lookup_cons. rewrite IH.
    destruct (l !! i); cbn; [|reflexivity]. do 2 f_equal. lia.
Qed.

Lemma length_enumerate {A : Type} (l : list A) (start : Z) :
  length (enumerate start l) = length l.
Proof. revert start. induction l as [|x l IH]; intros start; cbn; [|rewrite IH]; reflexivity. Qed.

Lemma length_slice_to {A : Type} (limit : Z) (l : list A) :
  length (slice_to limit l)
  = if 0 <=? limit then Nat.min (Z.to_nat limit) (length l)
    else (length l - Z.to_nat (- limit))%nat.
Proof.
  unfold slice_to. destruct (0 <=? limit); rewrite length_take; lia.
Qed.

Lemma slice_to_lookup {A : Type} (limit : Z) (l : list A) (i : nat) :
  (i < length (slice_to limit l))%nat -> slice_to limit l !! i = l !! i.
Proof.
  unfold slice_to. destruct (0 <=? limit); rewrite length_take;
    intros Hi; apply lookup_take_lt; lia.
Qed.

Lemma rows_of_display (body : list (Z * entry)) :
  let f := fun ie : Z * entry =>
             ShowRow (fst ie) (e_name (snd ie)) (e_score (snd ie))
               (e_difficulty (snd ie)) (shown_date (e_date (snd ie))) in
  rows ([ShowTitle] ++ map f body ++ [ShowBlank]) = map f body.
Proof.
  intros f. unfold rows. cbn [app List.filter].
  rewrite List.filter_app. cbn [List.filter]. rewrite app_nil_r.
  induction body as [|ie body IH]; [reflexivity|]. cbn. now rewrite IH.
Qed.

(** What [display_highscores] prints for a non-empty board. *)
Lemma display_highscores_eq limit fs e0 more :
  stored_entries fs = e0 :: more ->
  display_highscores limit fs
  = Ret ([ShowTitle]
           ++ map (fun ie : Z * entry =>
                     ShowRow (fst ie) (e_name (snd ie)) (e_score (snd ie))
                       (e_difficulty (snd ie)) (shown_date (e_date (snd ie))))
                (enumerate 1 (slice_to limit (e0 :: more)))
           ++ [ShowBlank]).
Proof.
  intros He. unfold display_highscores. rewrite load_highscores_eq, He. reflexivity.
Qed.

(** X17.  [display_highscores] prints a single "no highscores" line when the
    file is missing, unreadable or empty.  Otherwise it prints a title, one
    row per entry of [entries[:limit]] and a blank line: the first [limit]
    entries (all but the last [-limit] when [limit] is negative), in the
    order of the file, ranked from 1. *)
Theorem display_highscores_rows (limit : Z) (fs : file_state) :
  exists lines,
    display_highscores limit fs = Ret lines /\
    match stored_entries fs with
    | [] => lines = [ShowNoHighscores]
    | e0 :: more =>
        let entries := e0 :: more in
        hd_error lines = Some ShowTitle /\
        last lines = Some ShowBlank /\
        length lines = (2 + length (rows lines))%nat /\
        length (rows lines)
        = (if 0 <=? limit then Nat.min (Z.to_nat limit) (length entries)
           else (length entries - Z.to_nat (- limit))%nat) /\
        forall i, (i < length (rows lines))%nat ->
          exists e,
            entries !! i = Some e /\
            rows lines !! i
            = Some (ShowRow (Z.of_nat i + 1) (e_name e) (e_score e)
                      (e_difficulty e) (shown_date (e_date e)))
    end.
Proof.
  destruct (stored_entries fs) as [|e0 more] eqn:He.
  { exists [ShowNoHighscores]. split; [|reflexivity].
    unfold display_highscores. now rewrite load_highscores_eq, He. }
  eexists. split; [apply (display_highscores_eq limit fs e0 more He)|].
  cbv zeta. rewrite rows_of_display.
  rewrite length_map, length_enumerate, length_slice_to.
  split; [reflexivity|]. split; [rewrite !app_assoc; apply last_snoc|].
  split.
  { cbn [app length]. rewrite length_app, length_map, length_enumerate,
      length_slice_to. cbn [length]. lia. }
  split; [reflexivity|].
  intros i Hi. rewrite <- length_slice_to in Hi.
  destruct (lookup_lt_is_Some_2 _ _ Hi) as [e Hlook].
  exists e. split; [now rewrite <- (slice_to_lookup limit _ i Hi)|].
  rewrite list_lookup_fmap, enumerate_lookup, Hlook. cbn. do 2 f_equal. lia.
Qed.

Lemma row_scores_of_display (l : list entry) (start : Z) :
  map row_score
    (map (fun ie : Z * entry =>
            ShowRow (fst ie) (e_name (snd ie)) (e_score (snd ie))
              (e_difficulty (snd ie)) (shown_date (e_date (snd ie))))
       (enumerate start l))
  = map e_score l.
Proof.
  revert start. induction l as [|e l IH]; intros start; [reflexivity|].
  cbn. now rewrite IH.
Qed.

Lemma descending_scores l :
  descending l -> StronglySorted (fun a b => b <= a) (map e_score l).
Proof.
  unfold descending. induction 1 as [|e l _ IH Hall]; cbn; constructor; [exact IH|].
  apply List.Forall_map. exact Hall.
Qed.

(** X18.  After one or more additions, the highscores menu shows between 1 and
    10 rows: the 10 best scores of everything loaded and added, in
    descending order. *)
Theorem display_after_adds (fs : file_state) (r : add_request)
    (reqs : list add_request) :
  exists prior fs' lines,
    load_highscores fs = Ret prior /\
    add_all (r :: reqs) fs = Ret fs' /\
    display_highscores 10 fs' = Ret lines /\
    hd_error lines = Some ShowTitle /\
    (1 <= length (rows lines) <= 10)%nat /\
    map row_score (rows lines)
    = take 10 (map e_score
                 (sorted e_score (prior ++ map request_entry (r :: reqs)) true)) /\
    StronglySorted (fun a b => b <= a) (map row_score (rows lines)).
Proof.
  set (all := stored_entries fs ++ map request_entry (r :: reqs)).
  pose proof (sorted_perm e_score all true) as Hperm.
  pose proof (sorted_desc_e_score all) as Hd.
  destruct (sorted e_score all true) as [|e0 S] eqn:HS.
  { apply Permutation_length in Hperm. unfold all in Hperm.
    rewrite length_app in Hperm. cbn in Hperm. lia. }
  exists (stored_entries fs), (Stored (take 50 (e0 :: S))). eexists.
  split; [apply load_highscores_eq|].
  split; [rewrite add_all_eq; fold all; now rewrite HS|].
  split; [apply (display_highscores_eq 10 _ e0 (take 49 S)); reflexivity|].
  split; [reflexivity|].
  rewrite rows_of_display, row_scores_of_display.
  assert (Hcut : slice_to 10 (e0 :: take 49 S) = take 10 (e0 :: S)).
  { unfold slice_to. cbn [Z.leb Z.compare Z.to_nat Pos.to_nat Pos.iter_op Nat.add].
    change (e0 :: take 49 S) with (take 50 (e0 :: S)).
    rewrite firstn_firstn. reflexivity. }
  rewrite Hcut, length_map, length_enumerate.
  split; [|split].
  - rewrite length_take. cbn [length]. lia.
  - change (stored_entries fs ++ map request_entry (r :: reqs)) with all.
    rewrite HS. symmetry. apply firstn_map.
  - apply descending_scores. now apply (desc_take e_score).
Qed.

(** X19.  For a timestamp of at least 19 characters, the date shown for an
    entry has exactly 19 characters, none of them a "T", and is the same with
    or without the "Z" that [add_highscore] appends: the marker is never
    shown. *)
Theorem shown_date_hides_marker (now : string) :
  (19 <= length (chars now))%nat ->
  shown_date (now +:+ "Z") = shown_date now /\
  (length (chars (shown_date now)) = 19)%nat /\
  ~ In "T"%char (chars (shown_date now)).
Proof.
  intros Hlen. unfold shown_date, chars in *.
  assert (Happ : list_ascii_of_string (now +:+ "Z")
                 = list_ascii_of_string now ++ ["Z"%char]).
  { clear Hlen. induction now as [|c now IH]; [reflexivity|].
    change (String c now +:+ "Z") with (String c (now +:+ "Z")).
    cbn [list_ascii_of_string]. now rewrite IH. }
  split; [|split].
  - rewrite Happ, firstn_app.
    replace (19 - length (list_ascii_of_string now))%nat with 0%nat by lia.
    now rewrite app_nil_r.
  - rewrite list_ascii_of_string_of_list_ascii, length_map, length_take. lia.
  - rewrite list_ascii_of_string_of_list_ascii. intros Hin.
    apply in_map_iff in Hin as (c & Hc & _).
    destruct (Ascii.eqb_spec c "T"); [discriminate | congruence].
Qed.

Lemma shown_date_hides_marker_witness :
  shown_date ("2024-05-01T10:00:00.123456" +:+ "Z")
  = shown_date "2024-05-01T10:00:00.123456" /\
  (length (chars (shown_date "2024-05-01T10:00:00.123456")) = 19)%nat /\
  ~ In "T"%char (chars (shown_date "2024-05-01T10:00:00.123456")).
Proof.
  apply (shown_date_hides_marker "2024-05-01T10:00:00.123456").
  vm_compute. lia.
Defined.

Example shown_date_iso :
  shown_date "2024-05-01T10:00:00.123456Z" = "2024-05-01 10:00:00"%string.
Proof. reflexivity. Qed.

(* ================================================================== *)
(** * Choosing a difficulty and playing *)
(* ================================================================== *)

Lemma read_pick_scan answers :
  match read_pick answers with
  | (out, Some (pick, rest)) =>
      exists rejected,
        answers = rejected ++ pick :: rest /\
        Forall (fun a => ~ In a difficulty_order) rejected /\
        In pick difficulty_order /\
        out = replicate (length rejected) MenuInvalid
  | (out, None) =>
      Forall (fun a => ~ In a difficulty_order) answers /\
      out = replicate (length answers) MenuInvalid
  end.
Proof.
  induction answers as [|a answers IH]; [split; [constructor | reflexivity]|].
  cbn [read_pick]. destruct (DIFFICULTIES !! a) as [cfg|] eqn:Ha.
  - exists []. repeat split; [constructor|]. apply difficulty_keys. eauto.
  - assert (Hno : ~ In a difficulty_order).
    { intros Hin. apply difficulty_keys in Hin as [cfg Hcfg]. congruence. }
    destruct (read_pick answers) as [out [[pick rest]|]].
    + destruct IH as (rejected & -> & Hr & Hp & ->). exists (a :: rejected).
      repeat split; auto.
    + destruct IH as [Hr ->]. split; [constructor; assumption | reflexivity].
Qed.

Lemma choose_difficulty_scan answers :
  match snd (choose_difficulty answers) with
  | Some (pick, _) => In pick difficulty_order
  | None => True
  end.
Proof.
  unfold choose_difficulty. pose proof (read_pick_scan answers) as H.
  destruct (read_pick answers) as [out [[pick rest]|]]; cbn [snd]; [|exact I].
  now destruct H as (rejected & _ & _ & Hp & _).
Qed.

(** X20.  [choose_difficulty] returns the first answer that is one of the four
    modes and leaves the answers after it unread; it prints the menu and then
    one complaint for each answer before it.  When no answer is a mode it
    complains about each and meets the end of the input. *)
Theorem choose_difficulty_picks (answers : list string) :
  match choose_difficulty answers with
  | (menu, Some (pick, rest)) =>
      exists rejected,
        answers = rejected ++ pick :: rest /\
        Forall (fun a => ~ In a difficulty_order) rejected /\
        In pick difficulty_order /\
        menu = MenuTitle :: menu_options ++ replicate (length rejected) MenuInvalid
  | (menu, None) =>
      Forall (fun a => ~ In a difficulty_order) answers /\
      menu = MenuTitle :: menu_options ++ replicate (length answers) MenuInvalid
  end.
Proof.
  unfold choose_difficulty. pose proof (read_pick_scan answers) as H.
  destruct (read_pick answers) as [out [[pick rest]|]].
  - destruct H as (rejected & -> & Hr & Hp & ->). exists rejected. repeat split; auto.
  - destruct H as [Hr ->]. split; [assumption | reflexivity].
Qed.

(** X21.  Choice 1 of the menu, from choosing the difficulty to storing the
    score.  When no answer names a mode the input ends at the difficulty
    prompt.  Otherwise the mode picked is one of the four, the round is
    played in it and its result is scored with it: a won round scores at
    least 50 and one entry is added for the player in that mode with that
    score; a lost round scores 0 and leaves the highscore file as it was;
    and an exception that ends the round is passed on, and is never a
    [KeyError]. *)
Theorem main_choice_1_outcome (player : string) (answers : list string)
    (secret : Z) (clock : nat -> Q) (inp : list line) (now : string)
    (fs : file_state) :
  let after := snd (snd (main_choice_1 player answers secret clock inp now fs)) in
  match snd (choose_difficulty answers) with
  | None => after = Raise EOFError
  | Some (pick, _) =>
      In pick difficulty_order /\
      match snd (play_round pick player secret clock inp) with
      | Ret result =>
          exists score,
            compute_score result pick = Ret score /\
            ((result !! "win"%string = Some (VBool true) /\ 50 <= score /\
              after = add_highscore player score pick now fs) \/
             (result !! "win"%string = Some (VBool false) /\ score = 0 /\
              after = Ret fs))
      | Raise e => after = Raise e /\ forall k, e <> KeyError k
      | OutOfFuel => False
      end
  end.
Proof.
  intros after. subst after. unfold main_choice_1.
  pose proof (choose_difficulty_scan answers) as Hpick.
  destruct (choose_difficulty answers) as [menu [[pick rest]|]]; cbn [snd] in *;
    [|reflexivity].
  split; [exact Hpick|].
  pose proof (main_play_cases player pick secret clock inp now fs) as Hplay.
  cbv zeta in Hplay.
  destruct (proj2 (difficulty_keys pick) Hpick) as [cfg Hk].
  pose proof (play_round_outcome pick cfg player secret clock inp Hk) as Hout.
  destruct (snd (play_round pick player secret clock inp)) as [result|e|].
  - destruct Hplay as (score & Hscore & [(Hw & Hs & Ha & _)|(Hw & Hs & Ha & _)]);
      exists score; (split; [exact Hscore|]); [left | right]; now repeat split.
  - destruct Hplay as [Ha _]. split; [exact Ha|].
    intros k. destruct Hout as [->| ->]; discriminate.
  - exact Hplay.
Qed.

(** X22.  On IEEE doubles, for secrets and differences from 0 to 1000, the
    first closeness test of [give_hint] holds exactly when the difference is
    at most 1 or at most a fiftieth of the secret (at most 2 for the
    secret 0). *)
Theorem float_extremely_close_meaning (secret diff : Z) :
  0 <= secret <= 1000 -> 0 <= diff <= 1000 ->
  (float_extremely_close secret diff = true <->
   (secret = 0 /\ diff <= 2) \/
   (secret <> 0 /\ (diff <= 1 \/ 50 * diff <= secret))).
Proof.
  intros Hs Hd.
  rewrite (float_test_agrees secret diff Hs Hd), extremely_close_decided.
  apply extremely_close_integers. lia.
Qed.

Lemma float_extremely_close_meaning_witness :
  float_extremely_close 150 3 = true <->
  (150 = 0 /\ 3 <= 2) \/ (150 <> 0 /\ (3 <= 1 \/ 50 * 3 <= 150)).
Proof.
  apply (float_extremely_close_meaning 150 3); lia.
Defined.
